(** * terminal-space-shooter: the simulation loop of [main.cpp]

    A shallow embedding of the game of [src/main.cpp]: the 30 x 160 board of
    characters, the enemy descent of [update_board], the body of the loop of
    [main] (firing, steering, deployment, descent, bullet advancement,
    repaint) and the two exits of the program, followed by the properties
    of the design document that can be stated over them. *)

From Stdlib Require Import ZArith Ascii String List Lia Bool.
From stdpp Require Import base tactics option list sorting.

Local Open Scope Z_scope.

(** ** The board: [vector<vector<char>>] *)

(** The glyphs the program stores in cells. *)
Definition EMPTY : ascii := " "%char.
Definition ENEMY : ascii := "#"%char.
Definition BULLET : ascii := "."%char.
Definition SHOOTER : ascii := "A"%char.
Definition BORDER : ascii := "0"%char.

Abbreviation board := (list (list ascii)).

(** [space[i][j]] with [int] indices.  An index outside the vector is
    undefined behaviour in the source; the model reads a blank there. *)
Definition cell (space : board) (i j : Z) : ascii :=
  if (0 <=? i) && (0 <=? j) then
    match space !! Z.to_nat i with
    | Some row => match row !! Z.to_nat j with
                  | Some c => c
                  | None => EMPTY
                  end
    | None => EMPTY
    end
  else EMPTY.

(** [space[i][j] = c].  Outside the vector (undefined behaviour in the
    source) the model writes nothing. *)
Definition put (space : board) (i j : Z) (c : ascii) : board :=
  if (0 <=? i) && (0 <=? j) then
    alter (fun row => <[Z.to_nat j := c]> row) (Z.to_nat i) space
  else space.

(** [vector<vector<char>> space(rows, vector<char>(cols, ' '))] *)
Definition fresh_board (rows cols : Z) : board :=
  replicate (Z.to_nat rows) (replicate (Z.to_nat cols) EMPTY).

(** The fixed screen size of [main]. *)
Definition ROWS : Z := 30.
Definition COLS : Z := 160.

(** A board of the size [main] allocates. *)
Definition sized (space : board) : Prop :=
  length space = Z.to_nat ROWS /\
  Forall (fun row => length row = Z.to_nat COLS) space.

Definition inside (i j : Z) : Prop := 0 <= i < ROWS /\ 0 <= j < COLS.

(** The outermost ring of the grid. *)
Definition on_border (i j : Z) : Prop :=
  i = 0 \/ i = ROWS - 1 \/ j = 0 \/ j = COLS - 1.

(** ** The terminal and the standard streams

    What the program touches outside its own memory: the attributes of the
    terminal on standard input ([tcgetattr]/[tcsetattr]), the file status
    flags of standard input ([fcntl]) and the text written to [cout].  The
    two [static] variables of [set_terminal_raw_mode] live as long as the
    process and are kept with them. *)

Record termios : Type := Termios
  { c_iflag : Z; c_oflag : Z; c_cflag : Z; c_lflag : Z }.

(** Values of <termios.h> and <fcntl.h> on Linux; nothing below depends on
    the particular bits. *)
Definition ICANON : Z := 2.
Definition ECHO : Z := 8.
Definition O_NONBLOCK : Z := 2048.

Record world : Type := World
  { tty : termios;        (* attributes of the terminal *)
    fd_flags : Z;         (* file status flags of STDIN_FILENO *)
    oldt : termios;       (* static termios oldt *)
    newt : termios;       (* static termios newt *)
    cout : list string }. (* the texts written to cout, oldest first: one
                             per output statement, the loops of
                             print_board taken as one *)

(** A computation either returns with a value or ends the process with an
    exit status ([exit(0)], or [return 0] from [main]). *)
Inductive result (A : Type) : Type :=
| Ret (a : A) (w : world)
| Exit (status : Z) (w : world).
Arguments Ret {A} a w.
Arguments Exit {A} status w.

Definition M (A : Type) : Type := world -> result A.

Definition exit {A} (status : Z) : M A := fun w => Exit status w.

#[global] Instance M_ret : MRet M := fun A a w => Ret a w.

#[global] Instance M_bind : MBind M := fun A B k m w =>
  match m w with
  | Ret a w' => k a w'
  | Exit status w' => Exit status w'
  end.

(** [cout << s] *)
Definition print (s : string) : M unit :=
  fun w => Ret tt {| tty := tty w; fd_flags := fd_flags w; oldt := oldt w;
                     newt := newt w; cout := cout w ++ [s] |}.

Definition NL : string := String "010"%char EmptyString.
Definition ESC : ascii := "027"%char.

(** ["\033[2J\033[1;1H"]: clear the screen, cursor to (1,1). *)
Definition CLEAR : string :=
  String ESC (String.append "[2J" (String ESC "[1;1H")).

(** raw terminal mode: disables canonical input + echo *)
Definition set_terminal_raw_mode (enable : bool) : M unit :=
  fun w =>
    if enable then
      let oldt' := tty w in                                  (* tcgetattr(&oldt) *)
      let newt' := {| c_iflag := c_iflag oldt'; c_oflag := c_oflag oldt';
                      c_cflag := c_cflag oldt';
                      c_lflag := Z.land (c_lflag oldt')
                                        (Z.lnot (Z.lor ICANON ECHO)) |} in
      Ret tt {| tty := newt'; fd_flags := fd_flags w; oldt := oldt';
                newt := newt'; cout := cout w |}
    else
      Ret tt {| tty := oldt w; fd_flags := fd_flags w; oldt := oldt w;
                newt := newt w; cout := cout w |}.

(** enables/disables non-blocking [read()] on stdin *)
Definition set_non_blocking_input (enable : bool) : M unit :=
  fun w =>
    let flags := fd_flags w in                               (* F_GETFL *)
    let flags' := if enable then Z.lor flags O_NONBLOCK
                  else Z.land flags (Z.lnot O_NONBLOCK) in
    Ret tt {| tty := tty w; fd_flags := flags'; oldt := oldt w;
              newt := newt w; cout := cout w |}.

(** ** [update_board]: enemy descent and the loss check *)

(** Lines 63-66: the move of one cell. *)
Definition descend_cell (space : board) (i j : Z) : board :=
  if Ascii.eqb (cell space i j) ENEMY && Ascii.eqb (cell space (i + 1) j) EMPTY
  then put (put space i j EMPTY) (i + 1) j ENEMY
  else space.

(** Line 69: [space[29][j] == '#']. *)
Definition reached_bottom (space : board) (j : Z) : bool :=
  Ascii.eqb (cell space 29 j) ENEMY.

(** How the two loops end: they run to completion, or the exit branch of
    lines 69-75 is taken with the board in the given state. *)
Inductive descent : Type :=
| Descended (space : board)
| Landed (space : board).

(** The inner loop, over the columns still to visit in row [i]. *)
Fixpoint descend_row (js : list Z) (i : Z) (space : board) : descent :=
  match js with
  | [] => Descended space
  | j :: js' =>
      let space' := descend_cell space i j in
      if reached_bottom space' j then Landed space'
      else descend_row js' i space'
  end.

(** The outer loop, over the rows still to visit. *)
Fixpoint descend_rows (rs js : list Z) (space : board) : descent :=
  match rs with
  | [] => Descended space
  | i :: rs' =>
      match descend_row js i space with
      | Descended space' => descend_rows rs' js space'
      | Landed space' => Landed space'
      end
  end.

(** [i = space.size() - 2; i >= 1; --i].  The sizes are unsigned in the
    source: on a vector of fewer than two rows, or with a first row of
    fewer than two cells, the subtraction wraps and the loops index
    outside the vector; the model visits nothing there.  [main] only ever
    passes its 30 x 160 board. *)
Definition row_order (space : board) : list Z :=
  rev (seqZ 1 (Z.of_nat (length space) - 2)).

(** [j = 1; j < space[0].size() - 1; ++j] *)
Definition col_order (space : board) : list Z :=
  match space with
  | [] => []
  | row0 :: _ => seqZ 1 (Z.of_nat (length row0) - 2)
  end.

Definition descend (space : board) : descent :=
  descend_rows (row_order space) (col_order space) space.

(** The exit branch of [update_board]. *)
Definition you_lost {A} : M A :=
  set_terminal_raw_mode false;;
  set_non_blocking_input false;;
  print CLEAR;;
  print (String.append "You lost" NL);;
  exit 0.

(** The loops touch nothing but the board until the exit branch is taken,
    so the board is computed first and the branch is run where it ends. *)
Definition update_board (space : board) : M board :=
  match descend space with
  | Descended space' => mret space'
  | Landed _ => you_lost
  end.

(** ** [print_board] *)

Definition glyph (rows cols : Z) (i j : Z) (c : ascii) : ascii :=
  if ((i =? 0) || (i =? rows - 1) || (j =? 0) || (j =? cols - 1))
     && Ascii.eqb c EMPTY
  then BORDER else c.

Definition frame (space : board) : string :=
  let rows := Z.of_nat (length space) in
  let cols := match space with
              | [] => 0
              | row0 :: _ => Z.of_nat (length row0)
              end in
  String.concat EmptyString
    (imap (fun i row =>
             String.append
               (string_of_list_ascii
                  (imap (fun j c => glyph rows cols (Z.of_nat i) (Z.of_nat j) c) row))
               NL)
          space).

Definition print_board (space : board) : M unit :=
  print CLEAR;; print (frame space).

(** ** The loop of [main] *)

Abbreviation bullet := (Z * Z)%type.

Record game : Type := Game
  { space : board;
    shooter_position : Z;
    bullets : list bullet;          (* each bullet has (y, x) position *)
    last_bullet_time : Z;
    last_deploy_time : Z;
    last_frame_time : Z }.

(** What one iteration reads from outside: the monotonic clock (in its own
    ticks, nanoseconds), the pending key ([NUL] when none) and the column
    [generate_random] would return. *)
Record input : Type := Input
  { now : Z; key : ascii; rnd : Z }.

Definition NUL : ascii := "000"%char.

(** [uniform_int_distribution<> dist(1, 158)] *)
Definition valid_input (inp : input) : Prop := 1 <= rnd inp <= 158.

(** [duration_cast<milliseconds>(d).count()] and
    [duration_cast<seconds>(d).count()], truncating.  The durations they
    are applied to are differences of clock readings, taken in [Z] here
    and in 64-bit ticks in the source: see [clock_span] below. *)
Definition milliseconds (d : Z) : Z := Z.quot d 1000000.
Definition seconds (d : Z) : Z := Z.quot d 1000000000.

(** Lines 121-124: shoot a bullet every 100ms from the shooter's position. *)
Definition fire (t : Z) (g : game) : list bullet * Z :=
  if 100 <=? milliseconds (t - last_bullet_time g)
  then (bullets g ++ [(27, shooter_position g)], t)
  else (bullets g, last_bullet_time g).

(** Lines 130-144: the [switch] on the key. *)
Definition steer (move : ascii) (shooter_position : Z) : M Z :=
  if Ascii.eqb move "a" then
    mret (if 1 <? shooter_position then shooter_position - 1 else shooter_position)
  else if Ascii.eqb move "d" then
    mret (if shooter_position <? COLS - 2 then shooter_position + 1
         else shooter_position)
  else if Ascii.eqb move "q" then
    set_terminal_raw_mode false;;
    set_non_blocking_input false;;
    print (String.append "Quit." NL);;
    exit 0
  else mret shooter_position.

(** Lines 150-154: every 2 seconds, deploy a new enemy in the top row. *)
Definition deploy (t : Z) (deploy_position : Z) (last_deploy_time : Z)
    (space : board) : board * Z :=
  if 2 <=? seconds (t - last_deploy_time)
  then (put space 1 deploy_position ENEMY, t)
  else (space, last_deploy_time).

(** Lines 163-166: erase old bullet positions (if still rendered). *)
Fixpoint erase_bullets (bs : list bullet) (space : board) : board :=
  match bs with
  | [] => space
  | b :: bs' =>
      erase_bullets bs'
        (if Ascii.eqb (cell space (fst b) (snd b)) BULLET
         then put space (fst b) (snd b) EMPTY else space)
  end.

(** Lines 168-183: move every bullet one row up. *)
Fixpoint advance_bullets (bs : list bullet) (space : board)
    (new_bullets : list bullet) : board * list bullet :=
  match bs with
  | [] => (space, new_bullets)
  | b :: bs' =>
      let new_x := fst b - 1 in
      let y := snd b in
      if 1 <=? new_x then
        if Ascii.eqb (cell space new_x y) ENEMY
        then advance_bullets bs' (put space new_x y EMPTY) new_bullets
        else advance_bullets bs' space (new_bullets ++ [(new_x, y)])
      else advance_bullets bs' space new_bullets
  end.

(** Lines 186-188: draw updated bullet positions. *)
Fixpoint draw_bullets (bs : list bullet) (space : board) : board :=
  match bs with
  | [] => space
  | b :: bs' => draw_bullets bs' (put space (fst b) (snd b) BULLET)
  end.

(** Lines 162-189 together. *)
Definition bullet_step (bs : list bullet) (space : board) : board * list bullet :=
  let '(space', new_bullets) := advance_bullets bs (erase_bullets bs space) [] in
  (draw_bullets new_bullets space', new_bullets).

(** One iteration of [while (true)]. *)
Definition tick (inp : input) (g : game) : M game :=
  let t := now inp in
  let move := key inp in
  let '(bullets1, last_bullet_time1) := fire t g in
  let space0 := put (space g) 28 (shooter_position g) EMPTY in
  position ← steer move (shooter_position g);
  let space1 := put space0 28 position SHOOTER in
  let '(space2, last_deploy_time1) :=
    deploy t (rnd inp) (last_deploy_time g) space1 in
  moved ← (if 500 <=? milliseconds (t - last_frame_time g)
            then space3 ← update_board space2; mret (space3, t)
            else mret (space2, last_frame_time g));
  let '(space4, new_bullets) := bullet_step bullets1 (fst moved) in
  print_board space4;;
  mret {| space := space4;
         shooter_position := position;
         bullets := new_bullets;
         last_bullet_time := last_bullet_time1;
         last_deploy_time := last_deploy_time1;
         last_frame_time := snd moved |}.

(** The state [main] enters the loop with; the three clock readings of
    lines 106, 111 and 112 are taken from outside. *)
Definition game_start (t0 t1 t2 : Z) : game :=
  {| space := fresh_board ROWS COLS;
     shooter_position := 70;
     bullets := [];
     last_bullet_time := t0;
     last_deploy_time := t1;
     last_frame_time := t2 |}.

(** The loop over the iterations the environment has input for.  [Ret g]
    says the loop is still running when that input is used up. *)
Fixpoint loop (inputs : list input) (g : game) : M game :=
  match inputs with
  | [] => mret g
  | inp :: rest => g' ← tick inp g; loop rest g'
  end.

Definition main (t0 t1 t2 : Z) (inputs : list input) : M game :=
  set_terminal_raw_mode true;;
  set_non_blocking_input true;;
  loop inputs (game_start t0 t1 t2).

(** The states the loop of [main] can be in at the top of an iteration. *)
Inductive reachable : game -> Prop :=
| reach_start t0 t1 t2 : reachable (game_start t0 t1 t2)
| reach_tick g inp w g' w' :
    reachable g -> valid_input inp -> tick inp g w = Ret g' w' ->
    reachable g'.

(** ** Predicates used in the statements *)

(** No cell of the outermost ring stores anything: the border is drawn by
    [print_board] over blank cells. *)
Definition border_clear (space : board) : Prop :=
  forall i j, on_border i j -> cell space i j = EMPTY.

Definition is_enemy (c : ascii) : nat := if Ascii.eqb c ENEMY then 1 else 0.

Fixpoint enemies_in_row (row : list ascii) : nat :=
  match row with
  | [] => 0
  | c :: row' => is_enemy c + enemies_in_row row'
  end.

(** The number of cells of the board that hold an enemy. *)
Fixpoint enemy_count (space : board) : nat :=
  match space with
  | [] => 0
  | row :: rest => enemies_in_row row + enemy_count rest
  end.

(** The board the two loops of [update_board] stop with. *)
Definition final (d : descent) : board :=
  match d with
  | Descended space' => space'
  | Landed space' => space'
  end.

(** Where a bullet stands after it has moved: [(new_x, y)]. *)
Definition risen (b : bullet) : bullet := (fst b - 1, snd b).

Definition landed (d : descent) : bool :=
  match d with
  | Descended _ => false
  | Landed _ => true
  end.


(** Bullets in flight at the top of an iteration: strictly inside the
    border and above the row new bullets are enqueued in. *)
Definition in_flight (b : bullet) : Prop :=
  1 <= fst b <= 26 /\ 1 <= snd b <= COLS - 2.

(** Bullets are kept in the order they were fired: each one is above the
    ones enqueued after it. *)
Definition rising (bs : list bullet) : Prop :=
  StronglySorted (fun b1 b2 => fst b1 < fst b2) bs.

(** The world after [set_terminal_raw_mode(false)] and
    [set_non_blocking_input(false)]. *)
Definition restored (w : world) : world :=
  {| tty := oldt w;
     fd_flags := Z.land (fd_flags w) (Z.lnot O_NONBLOCK);
     oldt := oldt w; newt := newt w; cout := cout w |}.

(** The world with more text on [cout]. *)
Definition printed (texts : list string) (w : world) : world :=
  {| tty := tty w; fd_flags := fd_flags w; oldt := oldt w; newt := newt w;
     cout := cout w ++ texts |}.

(** The column the [switch] leaves the shooter in, for a key that is not
    ['q']. *)
Definition steered (move : ascii) (position : Z) : Z :=
  if Ascii.eqb move "a" then (if 1 <? position then position - 1 else position)
  else if Ascii.eqb move "d" then
         (if position <? COLS - 2 then position + 1 else position)
  else position.

(** Lines 127 and 147 together: the old cell of the shooter cleared, the
    new one written. *)
Definition place_shooter (space : board) (old_position new_position : Z) : board :=
  put (put space 28 old_position EMPTY) 28 new_position SHOOTER.

(** The board handed to the descent gate of an iteration that does not
    quit: shooter redrawn, enemy deployed if due. *)
Definition before_descent (inp : input) (g : game) : board :=
  fst (deploy (now inp) (rnd inp) (last_deploy_time g)
         (place_shooter (space g) (shooter_position g)
            (steered (key inp) (shooter_position g)))).

Definition descent_due (inp : input) (g : game) : bool :=
  500 <=? milliseconds (now inp - last_frame_time g).

Definition fire_due (inp : input) (g : game) : bool :=
  100 <=? milliseconds (now inp - last_bullet_time g).

(** The state an iteration that neither quits nor loses ends with,
    from the board [space3] the descent gate lets through. *)
Definition next_game (inp : input) (g : game) (space3 : board) : game :=
  {| space := fst (bullet_step (fst (fire (now inp) g)) space3);
     shooter_position := steered (key inp) (shooter_position g);
     bullets := snd (bullet_step (fst (fire (now inp) g)) space3);
     last_bullet_time := snd (fire (now inp) g);
     last_deploy_time :=
       snd (deploy (now inp) (rnd inp) (last_deploy_time g)
              (place_shooter (space g) (shooter_position g)
                 (steered (key inp) (shooter_position g))));
     last_frame_time := if descent_due inp g then now inp else last_frame_time g |}.

(** The invariant of the loop of [main]. *)
Definition tidy (g : game) : Prop :=
  sized (space g) /\
  border_clear (space g) /\
  1 <= shooter_position g <= COLS - 2 /\
  Forall in_flight (bullets g) /\
  rising (bullets g).

(** ** Predicates used for the other functions *)

(** The attributes [set_terminal_raw_mode(true)] installs over [t]. *)
Definition raw_of (t : termios) : termios :=
  {| c_iflag := c_iflag t; c_oflag := c_oflag t; c_cflag := c_cflag t;
     c_lflag := Z.land (c_lflag t) (Z.lnot (Z.lor ICANON ECHO)) |}.

(** The glyphs the program ever stores in a cell. *)
Definition stored (c : ascii) : Prop :=
  c = EMPTY \/ c = ENEMY \/ c = BULLET \/ c = SHOOTER.

(** The marks on the board are the bullets of the list. *)
Definition synced (g : game) : Prop :=
  forall r k, cell (space g) r k = BULLET <-> (r, k) ∈ bullets g.

(** The shooter glyph stands nowhere but in the shooter's cell. *)
Definition lone_shooter (g : game) : Prop :=
  forall r k, cell (space g) r k = SHOOTER -> r = 28 /\ k = shooter_position g.

Definition deploy_due (inp : input) (g : game) : bool :=
  2 <=? seconds (now inp - last_deploy_time g).

(** A span of time the clock can hold: [steady_clock] counts in signed
    64-bit ticks, and [now - last] is computed in them.  The gates above
    subtract in [Z]; that is the source's difference whenever the
    difference is such a span, and beyond it the source overflows. *)
Definition clock_span (d : Z) : Prop := - 2 ^ 63 <= d < 2 ^ 63.

(** ** Concrete runs used as examples *)

(** The clock reading [n] milliseconds after the program started. *)
Definition ms (n : Z) : Z := n * 1000000.

(** A terminal in canonical mode with echo, standard input blocking. *)
Definition cooked_world : world :=
  {| tty := {| c_iflag := 0; c_oflag := 0; c_cflag := 0; c_lflag := Z.lor ICANON ECHO |};
     fd_flags := 2;
     oldt := {| c_iflag := 0; c_oflag := 0; c_cflag := 0; c_lflag := 0 |};
     newt := {| c_iflag := 0; c_oflag := 0; c_cflag := 0; c_lflag := 0 |};
     cout := [] |}.

(** The state the loop is in after the given iterations, if it is still
    running. *)
Definition ran (inputs : list input) : option game :=
  match loop inputs (game_start 0 0 0) cooked_world with
  | Ret g _ => Some g
  | Exit _ _ => None
  end.

Definition game_after (inputs : list input) : game :=
  default (game_start 0 0 0) (ran inputs).

(** The world those iterations leave. *)
Definition world_after (inputs : list input) : world :=
  match loop inputs (game_start 0 0 0) cooked_world with
  | Ret _ w => w
  | Exit _ w => w
  end.

Definition still_running (inputs : list input) : bool :=
  match ran inputs with
  | Some _ => true
  | None => false
  end.

Definition valid_inputb (inp : input) : bool :=
  (1 <=? rnd inp) && (rnd inp <=? 158).

(** How a computation ended, as tests. *)
Definition returned {A} (r : result A) : bool :=
  match r with
  | Ret _ _ => true
  | Exit _ _ => false
  end.

Definition exited_with {A} (status : Z) (r : result A) : bool :=
  match r with
  | Ret _ _ => false
  | Exit status' _ => status' =? status
  end.

Definition world_of {A} (r : result A) : world :=
  match r with
  | Ret _ w => w
  | Exit _ w => w
  end.

(** No key is pressed; an iteration every 500 ms from the 2 s mark, the
    generator returning column 1 whenever it is asked.  The enemy
    deployed in the first of these iterations is in row 28 after the
    last of them. *)
Definition landing_inputs : list input :=
  (fun n => Input (ms (2000 + 500 * n)) NUL 1) <$> seqZ 0 27.

(** No key for 13 s while the generator returns column 69, then ['a']:
    the shooter steps from column 70 under the enemy that has come down
    to row 27 of column 69. *)
Definition under_inputs : list input :=
  ((fun n => Input (ms (2000 + 500 * n)) NUL 69) <$> seqZ 0 26)
  ++ [Input (ms 14600) "a" 69].

(** No key for 15 s while the generator returns column 69: the enemy
    deployed first has come down to row 28 and stands in (28, 69), right
    beside the shooter in (28, 70). *)
Definition beside_inputs : list input :=
  (fun n => Input (ms (2000 + 500 * n)) NUL 69) <$> seqZ 0 27.

(** ['a'] read in 69 iterations 10 ms apart: the shooter goes from
    column 70 to column 1. *)
Definition hard_left : list input :=
  (fun n => Input (ms (10 * n)) "a" 1) <$> seqZ 1 69.

(** Two iterations 2 s apart while the generator returns column 80: each
    deploys an enemy and moves the enemies down once, so the first enemy
    is in (3, 80) and the second right above it in (2, 80). *)
Definition stacked_inputs : list input :=
  [Input (ms 2000) NUL 80; Input (ms 4000) NUL 80].

(** The board handed to [update_board] half a second later. *)
Definition stacked_board : board :=
  before_descent (Input (ms 4500) NUL 80) (game_after stacked_inputs).

(** The terminal of [cooked_world] with standard input already
    non-blocking when the program starts. *)
Definition nonblocking_world : world :=
  {| tty := tty cooked_world;
     fd_flags := Z.lor (fd_flags cooked_world) O_NONBLOCK;
     oldt := oldt cooked_world; newt := newt cooked_world; cout := [] |}.

Section BoardFacts.

Implicit Types (space : board) (i j r k : Z) (c : ascii).

Lemma cell_put_other space i j c r k :
  (r, k) <> (i, j) -> cell (put space i j c) r k = cell space r k.
Proof.
  intros Hne. unfold cell, put.
  destruct ((0 <=? i) && (0 <=? j)) eqn:Hij; [|reflexivity].
  destruct ((0 <=? r) && (0 <=? k)) eqn:Hrk; [|reflexivity].
  apply andb_true_iff in Hij as [Hi Hj]. apply andb_true_iff in Hrk as [Hr Hk].
  apply Z.leb_le in Hi, Hj, Hr, Hk.
  destruct (decide (Z.to_nat i = Z.to_nat r)) as [Heq|Hneq].
  - rewrite <- Heq, list_lookup_alter_eq.
    destruct (space !! Z.to_nat i) as [row|]; simpl; [|reflexivity].
    rewrite list_lookup_insert_ne; [reflexivity|].
    intros Hjk. apply Hne. f_equal; lia.
  - rewrite list_lookup_alter_ne by assumption. reflexivity.
Qed.

Lemma cell_put_same space i j c :
  sized space -> inside i j -> cell (put space i j c) i j = c.
Proof.
  intros [Hlen Hrows] [Hi Hj]. unfold cell, put, ROWS, COLS in *.
  replace ((0 <=? i) && (0 <=? j)) with true
    by (symmetry; apply andb_true_iff; split; apply Z.leb_le; lia).
  rewrite list_lookup_alter_eq.
  destruct (lookup_lt_is_Some_2 space (Z.to_nat i)) as [row Hrow]; [lia|].
  rewrite Hrow. simpl.
  assert (length row = Z.to_nat 160) as Hr.
  { eapply Forall_lookup_1 in Hrows; eauto. }
  rewrite list_lookup_insert_eq by lia. reflexivity.
Qed.

(** Whatever the indices, a write leaves either the written glyph or the
    old content (the latter only outside the vector). *)
Lemma cell_put_cases space i j c r k :
  cell (put space i j c) r k = cell space r k \/
  ((r, k) = (i, j) /\ cell (put space i j c) r k = c).
Proof.
  destruct (decide ((r, k) = (i, j))) as [Heq|Hne].
  - inversion Heq; subst. unfold cell, put.
    destruct ((0 <=? i) && (0 <=? j)) eqn:Hij; [|left; reflexivity].
    rewrite list_lookup_alter_eq.
    destruct (space !! Z.to_nat i) as [row|]; simpl; [|left; reflexivity].
    destruct (decide (Z.to_nat j < length row)%nat).
    + right. split; [reflexivity|]. rewrite list_lookup_insert_eq by assumption. reflexivity.
    + left. rewrite list_insert_ge by lia. reflexivity.
  - left. apply cell_put_other. assumption.
Qed.

Lemma put_sized space i j c : sized space -> sized (put space i j c).
Proof.
  intros [Hlen Hrows]. unfold put.
  destruct ((0 <=? i) && (0 <=? j)); [|split; assumption].
  split.
  - rewrite length_alter. assumption.
  - apply Forall_lookup_2. intros n row Hn.
    destruct (decide (Z.to_nat i = n)) as [<-|Hne].
    + rewrite list_lookup_alter_eq in Hn.
      destruct (space !! Z.to_nat i) as [row0|] eqn:Hrow0; simpl in Hn; [|discriminate].
      inversion Hn; subst. rewrite length_insert.
      eapply Forall_lookup_1 in Hrows; eauto.
    + rewrite list_lookup_alter_ne in Hn by assumption.
      eapply Forall_lookup_1 in Hrows; eauto.
Qed.

Lemma fresh_board_sized : sized (fresh_board ROWS COLS).
Proof.
  split.
  - unfold fresh_board. apply length_replicate.
  - unfold fresh_board. apply Forall_replicate. apply length_replicate.
Qed.

Lemma fresh_board_cell rows cols i j : cell (fresh_board rows cols) i j = EMPTY.
Proof.
  unfold cell, fresh_board.
  destruct ((0 <=? i) && (0 <=? j)); [|reflexivity].
  destruct (replicate _ _ !! Z.to_nat i) as [row|] eqn:Hrow; [|reflexivity].
  apply lookup_replicate_1 in Hrow as [-> _].
  destruct (replicate _ _ !! Z.to_nat j) as [c|] eqn:Hc; [|reflexivity].
  apply lookup_replicate_1 in Hc as [-> _]. reflexivity.
Qed.

Lemma cell_eq_dec_cases c x : {c = x} + {c <> x}.
Proof. destruct (Ascii.eqb_spec c x); [left|right]; assumption. Qed.

Lemma put_border_clear space i j c :
  (on_border i j -> c = EMPTY) ->
  border_clear space -> border_clear (put space i j c).
Proof.
  intros Hc Hb r k Hrk.
  destruct (cell_put_cases space i j c r k) as [->|[Heq ->]].
  - apply Hb. assumption.
  - inversion Heq; subst. apply Hc. assumption.
Qed.

Lemma fresh_board_border_clear : border_clear (fresh_board ROWS COLS).
Proof. intros i j _. apply fresh_board_cell. Qed.

End BoardFacts.


(** ** The descent loops *)

Section DescentFacts.

Implicit Types (space b : board) (i j r k : Z).

Lemma descend_cell_cases space i j :
  (descend_cell space i j = space /\
   ~ (cell space i j = ENEMY /\ cell space (i + 1) j = EMPTY)) \/
  (cell space i j = ENEMY /\ cell space (i + 1) j = EMPTY /\
   descend_cell space i j = put (put space i j EMPTY) (i + 1) j ENEMY).
Proof.
  unfold descend_cell.
  destruct (Ascii.eqb_spec (cell space i j) ENEMY) as [He|He]; simpl.
  - destruct (Ascii.eqb_spec (cell space (i + 1) j) EMPTY) as [Hb|Hb].
    + right. auto.
    + left. split; [reflexivity|]. intros [_ ?]. contradiction.
  - left. split; [reflexivity|]. intros [? _]. contradiction.
Qed.

Lemma descend_cell_other space i j r k :
  (r, k) <> (i, j) -> (r, k) <> (i + 1, j) ->
  cell (descend_cell space i j) r k = cell space r k.
Proof.
  intros H1 H2.
  destruct (descend_cell_cases space i j) as [[-> _]|(_ & _ & ->)]; [reflexivity|].
  rewrite !cell_put_other by assumption. reflexivity.
Qed.

Lemma descend_cell_sized space i j : sized space -> sized (descend_cell space i j).
Proof.
  intros Hs.
  destruct (descend_cell_cases space i j) as [[-> _]|(_ & _ & ->)]; [assumption|].
  auto using put_sized.
Qed.

(** A cell changes only by the move itself: the source from an enemy
    to a blank, the destination from a blank to an enemy. *)
Lemma descend_cell_change space i j r k :
  cell (descend_cell space i j) r k = cell space r k \/
  (cell space i j = ENEMY /\ cell space (i + 1) j = EMPTY /\
   (((r, k) = (i, j) /\ cell (descend_cell space i j) r k = EMPTY) \/
    ((r, k) = (i + 1, j) /\ cell (descend_cell space i j) r k = ENEMY))).
Proof.
  destruct (descend_cell_cases space i j) as [[-> _]|(He & Hb & ->)]; [left; reflexivity|].
  destruct (cell_put_cases (put space i j EMPTY) (i + 1) j ENEMY r k) as [->|[Heq ->]].
  - destruct (cell_put_cases space i j EMPTY r k) as [->|[Heq ->]].
    + left. reflexivity.
    + right. auto.
  - right. auto.
Qed.

Lemma descend_row_inv (P : board -> Prop) i js space :
  (forall b j, j ∈ js -> P b ->
     reached_bottom (descend_cell b i j) j = false -> P (descend_cell b i j)) ->
  P space ->
  match descend_row js i space with
  | Descended b' => P b'
  | Landed b' =>
      exists b j, j ∈ js /\ P b /\ b' = descend_cell b i j /\
                  reached_bottom b' j = true
  end.
Proof.
  revert space. induction js as [|j js IH]; intros space Hstep HP; simpl.
  - assumption.
  - destruct (reached_bottom (descend_cell space i j) j) eqn:Hr.
    + exists space, j. repeat split; auto. constructor.
    + specialize (IH (descend_cell space i j)).
      assert (P (descend_cell space i j)) as HP'
        by (apply Hstep; auto; constructor).
      assert (forall b j0, j0 ∈ js -> P b ->
                reached_bottom (descend_cell b i j0) j0 = false ->
                P (descend_cell b i j0)) as Hstep'
        by (intros; apply Hstep; auto; constructor; assumption).
      specialize (IH Hstep' HP').
      destruct (descend_row js i (descend_cell space i j)); [assumption|].
      destruct IH as (b & j0 & Hin & ?). exists b, j0. split; [|assumption].
      constructor. assumption.
Qed.

Lemma rev_seqZ_S (n : nat) :
  rev (seqZ 1 (Z.of_nat (S n))) = Z.of_nat (S n) :: rev (seqZ 1 (Z.of_nat n)).
Proof.
  rewrite seqZ_S, rev_app_distr. simpl. f_equal. lia.
Qed.

(** The invariant rule of the two loops: [P i] is what holds while row
    [i] is being visited; it may weaken from one row to the next. *)
Lemma descend_rows_inv (P : Z -> board -> Prop) js (n : nat) space :
  (forall i b j, 1 <= i <= Z.of_nat n -> j ∈ js -> P i b ->
     reached_bottom (descend_cell b i j) j = false -> P i (descend_cell b i j)) ->
  (forall i b, 1 <= i <= Z.of_nat n -> P i b -> P (i - 1) b) ->
  P (Z.of_nat n) space ->
  match descend_rows (rev (seqZ 1 (Z.of_nat n))) js space with
  | Descended b' => P 0 b'
  | Landed b' =>
      exists i b j, 1 <= i <= Z.of_nat n /\ j ∈ js /\ P i b /\
                    b' = descend_cell b i j /\ reached_bottom b' j = true
  end.
Proof.
  revert space. induction n as [|n IH]; intros space Hstep Hweak HP.
  - simpl. assumption.
  - rewrite rev_seqZ_S. cbn [descend_rows].
    pose proof (descend_row_inv (P (Z.of_nat (S n))) (Z.of_nat (S n)) js space) as Hrow.
    destruct (descend_row js (Z.of_nat (S n)) space) as [b1|b1].
    + assert (P (Z.of_nat n) b1) as HP1.
      { replace (Z.of_nat n) with (Z.of_nat (S n) - 1) by lia.
        apply Hweak; [lia|]. apply Hrow; [|assumption].
        intros. apply Hstep; auto. lia. }
      specialize (IH b1).
      assert (match descend_rows (rev (seqZ 1 (Z.of_nat n))) js b1 with
              | Descended b' => P 0 b'
              | Landed b' =>
                  exists i b j, 1 <= i <= Z.of_nat n /\ j ∈ js /\ P i b /\
                                b' = descend_cell b i j /\ reached_bottom b' j = true
              end) as IH'.
      { apply IH; [| |assumption].
        - intros. apply Hstep; auto. lia.
        - intros. apply Hweak; auto. lia. }
      destruct (descend_rows (rev (seqZ 1 (Z.of_nat n))) js b1); [assumption|].
      destruct IH' as (i & b & j & Hi & ?). exists i, b, j. split; [lia|assumption].
    + destruct Hrow as (b & j & Hin & Hb & ? & ?); [|assumption|].
      * intros. apply Hstep; auto. lia.
      * exists (Z.of_nat (S n)), b, j. repeat split; auto; lia.
Qed.

Lemma descend_sized_eq space :
  sized space ->
  descend space = descend_rows (rev (seqZ 1 (Z.of_nat 28))) (seqZ 1 158) space.
Proof.
  intros [Hlen Hrows]. unfold descend, row_order, col_order.
  rewrite Hlen. destruct space as [|row0 rest]; [discriminate|].
  inversion Hrows as [|? ? Hrow0 _]; subst. rewrite Hrow0. reflexivity.
Qed.

(** The rule for a board of the size of [main]: rows 28 down to 1,
    columns 1 to 158. *)
Lemma descend_inv (P : Z -> board -> Prop) space :
  sized space ->
  (forall i b j, 1 <= i <= 28 -> 1 <= j <= 158 -> P i b ->
     reached_bottom (descend_cell b i j) j = false -> P i (descend_cell b i j)) ->
  (forall i b, 1 <= i <= 28 -> P i b -> P (i - 1) b) ->
  P 28 space ->
  match descend space with
  | Descended b' => P 0 b'
  | Landed b' =>
      exists i b j, 1 <= i <= 28 /\ 1 <= j <= 158 /\ P i b /\
                    b' = descend_cell b i j /\ reached_bottom b' j = true
  end.
Proof.
  intros Hs Hstep Hweak HP. rewrite descend_sized_eq by assumption.
  pose proof (descend_rows_inv P (seqZ 1 158) 28 space) as H.
  destruct (descend_rows _ _ space).
  - apply H; auto.
    intros i b j Hi Hj HPb Hr. apply elem_of_seqZ in Hj. apply Hstep; auto; lia.
  - destruct H as (i & b & j & Hi & Hj & Hb & Heq & Hr); auto.
    + intros i b j Hi Hj HPb Hr. apply elem_of_seqZ in Hj. apply Hstep; auto; lia.
    + exists i, b, j. apply elem_of_seqZ in Hj. repeat split; auto; lia.
Qed.

(** The same rule for a property every visited cell preserves, whether
    the loops run to their end or not. *)
Lemma descend_final_inv (P : Z -> board -> Prop) space :
  sized space ->
  (forall i b j, 1 <= i <= 28 -> 1 <= j <= 158 -> P i b -> P i (descend_cell b i j)) ->
  (forall i b, 1 <= i <= 28 -> P i b -> P (i - 1) b) ->
  P 28 space ->
  exists i, 0 <= i <= 28 /\ P i (final (descend space)).
Proof.
  intros Hs Hstep Hweak HP.
  pose proof (descend_inv P space Hs) as H.
  destruct (descend space) as [b'|b']; simpl.
  - exists 0. split; [lia|]. apply H; auto.
  - destruct H as (i & b & j & Hi & Hj & Hb & -> & _); auto.
    exists i. split; [lia|]. apply Hstep; auto.
Qed.

End DescentFacts.

(** ** Counting enemies *)

Section CountFacts.

Implicit Types (space : board) (row : list ascii) (i j : Z) (c : ascii).

Lemma is_enemy_ENEMY : is_enemy ENEMY = 1%nat.
Proof. reflexivity. Qed.

Lemma is_enemy_EMPTY : is_enemy EMPTY = 0%nat.
Proof. reflexivity. Qed.

Lemma is_enemy_other c : c <> ENEMY -> is_enemy c = 0%nat.
Proof. unfold is_enemy. destruct (Ascii.eqb_spec c ENEMY); congruence. Qed.

Lemma enemies_in_row_insert row (n : nat) c :
  (enemies_in_row (<[n:=c]> row) + is_enemy (default EMPTY (row !! n)))%nat =
  (enemies_in_row row + (if decide (n < length row)%nat then is_enemy c else 0))%nat.
Proof.
  revert n. induction row as [|x row IH]; intros n.
  - destruct n; reflexivity.
  - destruct n as [|n]; simpl.
    + lia.
    + specialize (IH n). simpl in IH.
      destruct (decide (n < length row)%nat); destruct (decide (S n < S (length row))%nat);
        try lia.
Qed.

Lemma enemy_count_alter (f : list ascii -> list ascii) space (n : nat) :
  (enemy_count (alter f n space) + enemies_in_row (default [] (space !! n)))%nat =
  (enemy_count space + enemies_in_row (default [] (f <$> space !! n)))%nat.
Proof.
  revert n. induction space as [|row space IH]; intros n.
  - destruct n; reflexivity.
  - destruct n as [|n]; simpl.
    + lia.
    + specialize (IH n). change (list_alter f n space) with (alter f n space). lia.
Qed.

(** Writing anything but an enemy removes the enemy that was there, if
    any, and changes nothing else; also when the write falls outside. *)
Lemma enemy_count_put_blank space i j c :
  c <> ENEMY ->
  (enemy_count (put space i j c) + is_enemy (cell space i j))%nat = enemy_count space.
Proof.
  intros Hc. unfold put, cell.
  destruct ((0 <=? i) && (0 <=? j)); [|rewrite is_enemy_EMPTY; lia].
  pose proof (enemy_count_alter (fun row => <[Z.to_nat j:=c]> row) space (Z.to_nat i)) as Ha.
  destruct (space !! Z.to_nat i) as [row|] eqn:Hrow; simpl in Ha.
  - pose proof (enemies_in_row_insert row (Z.to_nat j) c) as Hr.
    rewrite (is_enemy_other c Hc) in Hr.
    destruct (row !! Z.to_nat j); simpl in Hr; try rewrite is_enemy_EMPTY in *;
      destruct (decide (Z.to_nat j < length row)%nat); lia.
  - rewrite is_enemy_EMPTY. lia.
Qed.

(** Writing an enemy into a cell of the board. *)
Lemma enemy_count_put_enemy space i j :
  sized space -> inside i j ->
  (enemy_count (put space i j ENEMY) + is_enemy (cell space i j))%nat =
  S (enemy_count space).
Proof.
  intros [Hlen Hrows] [Hi Hj]. unfold put, cell, ROWS, COLS in *.
  replace ((0 <=? i) && (0 <=? j)) with true
    by (symmetry; apply andb_true_iff; split; apply Z.leb_le; lia).
  pose proof (enemy_count_alter (fun row => <[Z.to_nat j:=ENEMY]> row) space (Z.to_nat i)) as Ha.
  destruct (lookup_lt_is_Some_2 space (Z.to_nat i)) as [row Hrow]; [lia|].
  rewrite Hrow in *. simpl in Ha.
  assert (length row = Z.to_nat 160) as Hr by (eapply Forall_lookup_1 in Hrows; eauto).
  pose proof (enemies_in_row_insert row (Z.to_nat j) ENEMY) as Hins.
  rewrite is_enemy_ENEMY in Hins.
  destruct (decide (Z.to_nat j < length row)%nat); [|lia].
  destruct (row !! Z.to_nat j); simpl in Hins; try rewrite is_enemy_EMPTY in *; lia.
Qed.

Lemma enemy_count_fresh rows cols : enemy_count (fresh_board rows cols) = 0%nat.
Proof.
  unfold fresh_board.
  assert (forall n, enemies_in_row (replicate n EMPTY) = 0%nat) as Hrow
    by (induction n; simpl; auto).
  induction (Z.to_nat rows) as [|n IH]; simpl; [reflexivity|].
  rewrite Hrow, IH. reflexivity.
Qed.

(** A board without enemies has count zero, and conversely. *)
Lemma enemy_count_cell space i j :
  cell space i j = ENEMY -> (0 < enemy_count space)%nat.
Proof.
  intros He.
  pose proof (enemy_count_put_blank space i j EMPTY) as H.
  rewrite He, is_enemy_ENEMY in H. specialize (H ltac:(discriminate)). lia.
Qed.

(** The move of one cell keeps the number of enemies. *)
Lemma descend_cell_count space i j :
  sized space -> inside (i + 1) j ->
  enemy_count (descend_cell space i j) = enemy_count space.
Proof.
  intros Hs Hin.
  destruct (descend_cell_cases space i j) as [[-> _]|(He & Hb & ->)]; [reflexivity|].
  pose proof (enemy_count_put_blank space i j EMPTY ltac:(discriminate)) as H1.
  rewrite He, is_enemy_ENEMY in H1.
  pose proof (enemy_count_put_enemy (put space i j EMPTY) (i + 1) j
                ltac:(auto using put_sized) Hin) as H2.
  rewrite cell_put_other in H2 by (intros Heq; inversion Heq; lia).
  rewrite Hb, is_enemy_EMPTY in H2. lia.
Qed.

End CountFacts.

(** ** What a whole descent does to a board of the size of [main] *)

Section DescentResults.

Implicit Types (space b : board) (i j r k : Z).

Lemma descend_final_sized space : sized space -> sized (final (descend space)).
Proof.
  intros Hs.
  destruct (descend_final_inv (fun _ b => sized b) space) as (_ & _ & H); auto.
  intros. apply descend_cell_sized. assumption.
Qed.

(** Every enemy of the result stood in the same cell or in the cell
    directly above before the descent. *)
Lemma descend_provenance space r k :
  sized space ->
  cell (final (descend space)) r k = ENEMY ->
  cell space r k = ENEMY \/ cell space (r - 1) k = ENEMY.
Proof.
  intros Hs.
  destruct (descend_final_inv
    (fun i b =>
       (forall r k, r <= i -> cell b r k = ENEMY -> cell space r k = ENEMY) /\
       (forall r k, cell b r k = ENEMY ->
                    cell space r k = ENEMY \/ cell space (r - 1) k = ENEMY))
    space) as (i & _ & _ & H); auto.
  - intros i b j Hi Hj [Hlow Hall]. split.
    + intros r0 k0 Hr0 He.
      destruct (descend_cell_change b i j r0 k0) as [Heq|(_ & _ & [[_ Hc]|[Hc _]])].
      * apply Hlow; [assumption|]. rewrite <- Heq. assumption.
      * rewrite Hc in He. discriminate.
      * inversion Hc; lia.
    + intros r0 k0 He.
      destruct (descend_cell_change b i j r0 k0) as [Heq|(Hsrc & _ & [[_ Hc]|[Hc _]])].
      * apply Hall. rewrite <- Heq. assumption.
      * rewrite Hc in He. discriminate.
      * inversion Hc; subst. right. replace (i + 1 - 1) with i by lia.
        apply Hlow; [lia|assumption].
  - intros i b Hi [Hlow Hall]. split; [|assumption].
    intros. apply Hlow; [lia|assumption].
Qed.

(** No enemy is created, lost or merged. *)
Lemma descend_count space :
  sized space -> enemy_count (final (descend space)) = enemy_count space.
Proof.
  intros Hs.
  destruct (descend_final_inv
    (fun _ b => sized b /\ enemy_count b = enemy_count space) space)
    as (_ & _ & _ & H); auto.
  intros i b j Hi Hj [Hsb Hc]. split.
  - apply descend_cell_sized. assumption.
  - rewrite descend_cell_count; [assumption|assumption|].
    unfold inside, ROWS, COLS. lia.
Qed.

(** A cell that holds neither a blank nor an enemy is never touched. *)
Lemma descend_static space r k :
  sized space ->
  cell space r k <> EMPTY -> cell space r k <> ENEMY ->
  cell (final (descend space)) r k = cell space r k.
Proof.
  intros Hs Hb He.
  destruct (descend_final_inv (fun _ b => cell b r k = cell space r k) space)
    as (_ & _ & H); auto.
  intros i b j Hi Hj Heq.
  destruct (descend_cell_change b i j r k) as [Hsame|(Hsrc & Hdst & [[Hc _]|[Hc _]])].
  - congruence.
  - inversion Hc; subst. congruence.
  - inversion Hc; subst. congruence.
Qed.


(** When the loops run to their end, the border ring is as blank as it
    was: the only move into it is the one the exit branch catches. *)
Lemma descend_border_clear space b' :
  sized space -> border_clear space ->
  descend space = Descended b' -> border_clear b'.
Proof.
  intros Hs Hb Hd.
  pose proof (descend_inv (fun _ b => border_clear b) space Hs) as H.
  rewrite Hd in H. apply H; auto.
  intros i b j Hi Hj Hbc Hr r k Hrk.
  destruct (descend_cell_change b i j r k) as [->|(Hsrc & Hdst & [[_ Hc]|[Hc He]])].
  - apply Hbc. assumption.
  - assumption.
  - inversion Hc; subst.
    assert (i = 28) as -> by (unfold on_border, ROWS, COLS in Hrk; lia).
    unfold reached_bottom in Hr. change (28 + 1) with 29 in He.
    rewrite He in Hr. discriminate.
Qed.

Lemma descend_row_lands js b j0 :
  j0 ∈ js -> sized b -> 0 <= j0 < COLS ->
  cell b 29 j0 = ENEMY \/ (cell b 28 j0 = ENEMY /\ cell b 29 j0 = EMPTY) ->
  exists b', descend_row js 28 b = Landed b'.
Proof.
  revert b. induction js as [|j js IH]; intros b Hin Hs Hj Hcol.
  - inversion Hin.
  - simpl. destruct (reached_bottom (descend_cell b 28 j) j) eqn:Hr; [eauto|].
    destruct (decide (j = j0)) as [->|Hne].
    + exfalso. unfold reached_bottom in Hr.
      destruct (descend_cell_cases b 28 j0) as [[Heq Hno]|(_ & Hb & Heq)].
      * rewrite Heq in Hr. destruct Hcol as [He|?]; [|tauto].
        rewrite He in Hr. discriminate.
      * rewrite Heq in Hr. change (28 + 1) with 29 in Hr.
        rewrite cell_put_same in Hr.
        -- discriminate.
        -- auto using put_sized.
        -- unfold inside, ROWS, COLS in *. lia.
    + apply IH.
      * apply elem_of_cons in Hin as [?|?]; [congruence|assumption].
      * apply descend_cell_sized. assumption.
      * assumption.
      * rewrite !descend_cell_other; [assumption| | | |];
          intros Heq; inversion Heq; congruence.
Qed.

(** An enemy in row 28 above a blank border cell, or an enemy in row 29,
    ends the game, in whichever of the columns 1 to 158 it stands. *)
Lemma descend_lands space j :
  sized space -> 1 <= j <= 158 ->
  cell space 29 j = ENEMY \/ (cell space 28 j = ENEMY /\ cell space 29 j = EMPTY) ->
  exists b', descend space = Landed b'.
Proof.
  intros Hs Hj Hcol. rewrite descend_sized_eq by assumption.
  change (Z.of_nat 28) with (Z.of_nat (S 27)). rewrite rev_seqZ_S.
  change (Z.of_nat (S 27)) with 28. cbn [descend_rows].
  destruct (descend_row_lands (seqZ 1 158) space j) as [b' ->]; auto.
  - apply elem_of_seqZ. lia.
  - unfold COLS. lia.
  - eauto.
Qed.

(** Conversely, when the exit branch is taken on a board whose row 29
    held no enemy, an enemy stood in row 28, in the column the branch
    was taken at. *)
Lemma descend_landed_from space b' :
  sized space -> (forall j, cell space 29 j <> ENEMY) ->
  descend space = Landed b' ->
  exists j, 1 <= j <= 158 /\ cell space 28 j = ENEMY /\ cell b' 29 j = ENEMY.
Proof.
  intros Hs H29 Hd.
  pose proof (descend_inv
    (fun i b => (forall j, cell b 29 j <> ENEMY) /\
                (i = 28 -> forall j, cell b 28 j = ENEMY -> cell space 28 j = ENEMY))
    space Hs) as H.
  rewrite Hd in H.
  destruct H as (i & b & j & Hi & Hj & [Hb29 Hb28] & -> & Hr).
  - intros i b j Hi Hj [Hb29 Hb28] Hr. split.
    + intros j0 He.
      destruct (descend_cell_change b i j 29 j0) as [Heq|(Hsrc & _ & [[_ Hc]|[Hc _]])].
      * apply (Hb29 j0). congruence.
      * rewrite Hc in He. discriminate.
      * inversion Hc; subst. unfold reached_bottom in Hr.
        change (28 + 1) with 29 in *. replace (i + 1) with 29 in He by lia.
        rewrite He in Hr. discriminate.
    + intros -> j0 He. apply (Hb28 eq_refl).
      destruct (descend_cell_change b 28 j 28 j0) as [Heq|(Hsrc & _ & [[_ Hc]|[Hc _]])].
      * congruence.
      * rewrite Hc in He. discriminate.
      * inversion Hc; lia.
  - intros i b Hi [Hb29 _]. split; [assumption|]. intros; lia.
  - split; auto.
  - unfold reached_bottom in Hr. apply Ascii.eqb_eq in Hr.
    exists j. split; [assumption|].
    destruct (descend_cell_change b i j 29 j) as [Heq|(Hsrc & _ & [[_ Hc]|[Hc _]])].
    + exfalso. apply (Hb29 j). congruence.
    + rewrite Hc in Hr. discriminate.
    + inversion Hc. assert (i = 28) as -> by lia. auto.
Qed.

(** On the board the exit branch is taken with, the only border cells
    that are not blank are cells of row 29 that hold an enemy. *)
Lemma descend_landed_border space r k :
  sized space -> border_clear space -> on_border r k ->
  cell (final (descend space)) r k = EMPTY \/
  (r = 29 /\ 1 <= k <= 158 /\ cell (final (descend space)) r k = ENEMY).
Proof.
  intros Hs Hb Hrk.
  destruct (descend_final_inv
    (fun _ b => cell b r k = EMPTY \/ (r = 29 /\ 1 <= k <= 158 /\ cell b r k = ENEMY))
    space) as (_ & _ & H); auto.
  intros i b j Hi Hj Hold.
  destruct (descend_cell_change b i j r k) as [->|(Hsrc & _ & [[_ Hc]|[Hc He]])].
  - assumption.
  - left. assumption.
  - right. inversion Hc; subst. unfold on_border, ROWS, COLS in Hrk.
    repeat split; [lia|lia|lia|assumption].
Qed.

(** Without an enemy in rows 28 and 29 the loops run to their end. *)
Lemma descend_continues space :
  sized space ->
  (forall j, cell space 28 j <> ENEMY) -> (forall j, cell space 29 j <> ENEMY) ->
  exists b', descend space = Descended b'.
Proof.
  intros Hs H28 H29.
  pose proof (descend_inv
    (fun i b => (forall j, cell b 29 j <> ENEMY) /\
                (i = 28 -> forall j, cell b 28 j <> ENEMY)) space Hs) as H.
  assert (forall i b j, 1 <= i <= 28 ->
            (forall j, cell b 29 j <> ENEMY) /\ (i = 28 -> forall j, cell b 28 j <> ENEMY) ->
            (forall j0, cell (descend_cell b i j) 29 j0 <> ENEMY) /\
            (i = 28 -> forall j0, cell (descend_cell b i j) 28 j0 <> ENEMY)) as Hstep.
  { intros i b j Hi [Hb29 Hb28]. split.
    - intros j0 He.
      destruct (descend_cell_change b i j 29 j0) as [Heq|(Hsrc & _ & [[_ Hc]|[Hc _]])].
      + apply (Hb29 j0). congruence.
      + rewrite Hc in He. discriminate.
      + inversion Hc; subst. assert (i = 28) as -> by lia. apply (Hb28 eq_refl j). assumption.
    - intros -> j0 He.
      destruct (descend_cell_change b 28 j 28 j0) as [Heq|(Hsrc & _ & [[_ Hc]|[Hc _]])].
      + apply (Hb28 eq_refl j0). congruence.
      + rewrite Hc in He. discriminate.
      + inversion Hc; lia. }
  destruct (descend space) as [b'|b']; [eauto|exfalso].
  destruct H as (i & b & j & Hi & Hj & HP & -> & Hr).
  - intros i b j Hi Hj HP _. apply Hstep; assumption.
  - intros i b Hi [Hb29 _]. split; [assumption|]. intros; lia.
  - split; auto.
  - destruct (Hstep i b j Hi HP) as [Hno _].
    unfold reached_bottom in Hr. apply Ascii.eqb_eq in Hr. apply (Hno j). assumption.
Qed.

End DescentResults.

(** ** The three bullet loops *)

Section BulletFacts.

Implicit Types (space : board) (b : bullet) (bs : list bullet) (r k : Z).

(** A cell that reads as anything but a blank lies inside the vector,
    so a write to it takes effect. *)
Lemma cell_put_hit space i j c :
  cell space i j <> EMPTY -> cell (put space i j c) i j = c.
Proof.
  intros Hne. unfold cell, put in *.
  destruct ((0 <=? i) && (0 <=? j)); [|congruence].
  rewrite list_lookup_alter_eq.
  destruct (space !! Z.to_nat i) as [row|]; simpl; [|congruence].
  destruct (row !! Z.to_nat j) as [x|] eqn:Hx; [|congruence].
  rewrite list_lookup_insert_eq; [reflexivity|].
  eapply lookup_lt_Some. eassumption.
Qed.

(** *** Erasing the old marks *)

Lemma erase_bullets_cell bs space r k :
  cell (erase_bullets bs space) r k = cell space r k \/
  (cell space r k = BULLET /\ cell (erase_bullets bs space) r k = EMPTY /\ (r, k) ∈ bs).
Proof.
  revert space. induction bs as [|[br bk] bs IH]; intros space; simpl.
  - left. reflexivity.
  - destruct (Ascii.eqb_spec (cell space br bk) BULLET) as [Hm|Hm].
    + destruct (decide ((r, k) = (br, bk))) as [Heq|Hne].
      * inversion Heq; subst. right.
        assert (cell (put space br bk EMPTY) br bk = EMPTY) as He
          by (apply cell_put_hit; rewrite Hm; discriminate).
        destruct (IH (put space br bk EMPTY)) as [Hs|(Hb & _)].
        -- repeat split; [assumption|congruence|constructor].
        -- rewrite He in Hb. discriminate.
      * destruct (IH (put space br bk EMPTY)) as [Hs|(Hb & He & Hin)];
          rewrite cell_put_other in * by assumption.
        -- left. assumption.
        -- right. repeat split; auto. constructor. assumption.
    + destruct (IH space) as [Hs|(Hb & He & Hin)].
      * left. assumption.
      * right. repeat split; auto. constructor. assumption.
Qed.

Lemma erase_bullets_mark bs space r k :
  (r, k) ∈ bs -> cell space r k = BULLET -> cell (erase_bullets bs space) r k = EMPTY.
Proof.
  revert space. induction bs as [|[br bk] bs IH]; intros space Hin Hb; simpl.
  - inversion Hin.
  - destruct (decide ((r, k) = (br, bk))) as [Heq|Hne].
    + inversion Heq; subst. rewrite Hb. simpl.
      assert (cell (put space br bk EMPTY) br bk = EMPTY) as He
        by (apply cell_put_hit; rewrite Hb; discriminate).
      destruct (erase_bullets_cell bs (put space br bk EMPTY) br bk) as [Hs|(Hm & _)].
      * congruence.
      * rewrite He in Hm. discriminate.
    + apply elem_of_cons in Hin as [?|Hin]; [contradiction|].
      apply IH; [assumption|].
      destruct (Ascii.eqb (cell space br bk) BULLET); [|assumption].
      rewrite cell_put_other by assumption. assumption.
Qed.

Lemma erase_bullets_sized bs space : sized space -> sized (erase_bullets bs space).
Proof.
  revert space. induction bs as [|b bs IH]; intros space Hs; simpl; [assumption|].
  apply IH. destruct (Ascii.eqb _ _); auto using put_sized.
Qed.

Lemma erase_bullets_border_clear bs space :
  border_clear space -> border_clear (erase_bullets bs space).
Proof.
  intros Hb r k Hrk.
  destruct (erase_bullets_cell bs space r k) as [->|(_ & -> & _)]; auto.
Qed.

Lemma erase_bullets_count bs space :
  enemy_count (erase_bullets bs space) = enemy_count space.
Proof.
  revert space. induction bs as [|[br bk] bs IH]; intros space; simpl; [reflexivity|].
  rewrite IH.
  destruct (Ascii.eqb_spec (cell space br bk) BULLET) as [Hm|Hm]; [|reflexivity].
  pose proof (enemy_count_put_blank space br bk EMPTY ltac:(discriminate)) as H.
  rewrite Hm in H. change (is_enemy BULLET) with 0%nat in H. lia.
Qed.

(** *** Advancing *)

Lemma advance_bullets_acc bs space acc :
  advance_bullets bs space acc =
  (fst (advance_bullets bs space []), acc ++ snd (advance_bullets bs space [])).
Proof.
  revert space acc. induction bs as [|b bs IH]; intros space acc; simpl.
  - rewrite app_nil_r. reflexivity.
  - destruct (1 <=? fst b - 1); [|apply IH].
    destruct (Ascii.eqb _ _); [apply IH|].
    rewrite (IH space (acc ++ _)), (IH space [_]). simpl.
    rewrite <- app_assoc. reflexivity.
Qed.

(** The loop without its accumulator. *)
Lemma advance_bullets_cons b bs space :
  advance_bullets (b :: bs) space [] =
  if 1 <=? fst b - 1 then
    if Ascii.eqb (cell space (fst b - 1) (snd b)) ENEMY
    then advance_bullets bs (put space (fst b - 1) (snd b) EMPTY) []
    else (fst (advance_bullets bs space []),
          risen b :: snd (advance_bullets bs space []))
  else advance_bullets bs space [].
Proof.
  simpl. destruct (1 <=? fst b - 1); [|reflexivity].
  destruct (Ascii.eqb _ _); [reflexivity|].
  rewrite advance_bullets_acc. reflexivity.
Qed.

Ltac advance_head b Ht He :=
  rewrite advance_bullets_cons;
  destruct (1 <=? fst b - 1) eqn:Ht;
  [match goal with
   | |- context [Ascii.eqb ?c ENEMY] => destruct (Ascii.eqb_spec c ENEMY) as [He|He]
   end|].

(** The only change to the board is an enemy replaced by a blank, in the
    cell right above one of the bullets. *)
Lemma advance_bullets_cell bs space r k :
  cell (fst (advance_bullets bs space [])) r k = cell space r k \/
  (cell space r k = ENEMY /\ cell (fst (advance_bullets bs space [])) r k = EMPTY /\
   (r + 1, k) ∈ bs /\ 1 <= r).
Proof.
  revert space. induction bs as [|b bs IH]; intros space.
  - left. reflexivity.
  - advance_head b Ht He.
    + destruct (decide ((r, k) = (fst b - 1, snd b))) as [Heq|Hne].
      * inversion Heq; subst. right.
        assert (cell (put space (fst b - 1) (snd b) EMPTY) (fst b - 1) (snd b) = EMPTY) as Hp
          by (apply cell_put_hit; rewrite He; discriminate).
        apply Z.leb_le in Ht. repeat split; auto.
        -- destruct (IH (put space (fst b - 1) (snd b) EMPTY)) as [Hs|(Hc & _)].
           ++ congruence.
           ++ rewrite Hp in Hc. discriminate.
        -- replace (fst b - 1 + 1) with (fst b) by lia. destruct b; constructor.
      * destruct (IH (put space (fst b - 1) (snd b) EMPTY)) as [Hs|(Hc & Hf & Hin & Hr)];
          rewrite cell_put_other in * by assumption.
        -- left. assumption.
        -- right. repeat split; auto. constructor. assumption.
    + simpl. destruct (IH space) as [Hs|(Hc & Hf & Hin & Hr)].
      * left. assumption.
      * right. repeat split; auto. constructor. assumption.
    + destruct (IH space) as [Hs|(Hc & Hf & Hin & Hr)].
      * left. assumption.
      * right. repeat split; auto. constructor. assumption.
Qed.

Lemma advance_bullets_keeps_blank bs space r k :
  cell space r k <> ENEMY -> cell (fst (advance_bullets bs space [])) r k <> ENEMY.
Proof.
  intros Hne. destruct (advance_bullets_cell bs space r k) as [->|(? & _)]; auto.
Qed.

(** Every bullet of the new list is one of the old list, one row up and
    not above row 1, and stands in a cell without an enemy. *)
Lemma advance_bullets_elem bs space b' :
  b' ∈ snd (advance_bullets bs space []) ->
  exists b, b ∈ bs /\ b' = risen b /\ 1 <= fst b' /\
            cell (fst (advance_bullets bs space [])) (fst b') (snd b') <> ENEMY.
Proof.
  revert space. induction bs as [|b bs IH]; intros space.
  - intros Hin. inversion Hin.
  - advance_head b Ht He; simpl.
    + intros Hin. destruct (IH _ Hin) as (b0 & ? & ? & ? & ?).
      exists b0. repeat split; auto. constructor. assumption.
    + intros Hin. apply elem_of_cons in Hin as [->|Hin].
      * exists b. apply Z.leb_le in Ht. repeat split; [constructor|assumption|].
        apply advance_bullets_keeps_blank. assumption.
      * destruct (IH _ Hin) as (b0 & ? & ? & ? & ?).
        exists b0. repeat split; auto. constructor. assumption.
    + intros Hin. destruct (IH _ Hin) as (b0 & ? & ? & ? & ?).
      exists b0. repeat split; auto. constructor. assumption.
Qed.

(** A bullet whose destination holds no enemy moves there. *)
Lemma advance_bullets_survive bs space b :
  b ∈ bs -> 1 <= fst b - 1 -> cell space (fst b - 1) (snd b) <> ENEMY ->
  risen b ∈ snd (advance_bullets bs space []).
Proof.
  revert space. induction bs as [|b0 bs IH]; intros space Hin Hr Hne.
  - inversion Hin.
  - apply elem_of_cons in Hin as [->|Hin].
    + advance_head b0 Ht He; [contradiction|simpl; constructor|].
      apply Z.leb_gt in Ht. lia.
    + advance_head b0 Ht He.
      * apply IH; auto.
        destruct (cell_put_cases space (fst b0 - 1) (snd b0) EMPTY (fst b - 1) (snd b))
          as [->|[_ ->]]; [assumption|discriminate].
      * simpl. constructor. apply IH; auto.
      * apply IH; auto.
Qed.

(** A bullet whose destination holds an enemy leaves a blank there. *)
Lemma advance_bullets_kill bs space b :
  b ∈ bs -> 1 <= fst b - 1 -> cell space (fst b - 1) (snd b) = ENEMY ->
  cell (fst (advance_bullets bs space [])) (fst b - 1) (snd b) = EMPTY.
Proof.
  revert space. induction bs as [|b0 bs IH]; intros space Hin Hr Hen.
  - inversion Hin.
  - assert (forall s, cell s (fst b - 1) (snd b) = EMPTY ->
              cell (fst (advance_bullets bs s [])) (fst b - 1) (snd b) = EMPTY) as Hstay.
    { intros s Hs. destruct (advance_bullets_cell bs s (fst b - 1) (snd b)) as [->|(Hc & _)];
        [assumption|]. rewrite Hs in Hc. discriminate. }
    advance_head b0 Ht He.
    + destruct (decide ((fst b - 1, snd b) = (fst b0 - 1, snd b0))) as [Heq|Hne].
      * apply Hstay. inversion Heq as [[H1 H2]]. rewrite H1, H2.
        apply cell_put_hit. rewrite He. discriminate.
      * apply elem_of_cons in Hin as [->|Hin]; [contradiction|].
        apply IH; auto. rewrite cell_put_other by assumption. assumption.
    + simpl. apply elem_of_cons in Hin as [->|Hin]; [contradiction|]. apply IH; auto.
    + apply elem_of_cons in Hin as [->|Hin]; [apply Z.leb_gt in Ht; lia|]. apply IH; auto.
Qed.

Lemma risen_inj b1 b2 : risen b1 = risen b2 -> b1 = b2.
Proof.
  destruct b1, b2. unfold risen. simpl. intros Heq. inversion Heq. f_equal. lia.
Qed.

(** ... and, when no other bullet shares its cell, is not in the new
    list. *)
Lemma advance_bullets_killed_gone bs space b :
  NoDup bs -> b ∈ bs -> 1 <= fst b - 1 ->
  cell space (fst b - 1) (snd b) = ENEMY ->
  risen b ∉ snd (advance_bullets bs space []).
Proof.
  revert space. induction bs as [|b0 bs IH]; intros space Hnd Hin Hr Hen.
  - inversion Hin.
  - apply NoDup_cons in Hnd as [Hfresh Hnd].
    apply elem_of_cons in Hin as [->|Hin].
    + advance_head b0 Ht He; [|contradiction|apply Z.leb_gt in Ht; lia].
      intros Hmem. apply advance_bullets_elem in Hmem as (b1 & Hb1 & Heq & _).
      apply risen_inj in Heq. subst. contradiction.
    + assert (b <> b0) as Hne by (intros ->; contradiction).
      assert (risen b <> risen b0) as Hrne by (intros Heq; apply risen_inj in Heq; auto).
      advance_head b0 Ht He.
      * apply IH; auto. rewrite cell_put_other by exact Hrne. assumption.
      * simpl. intros Hmem. apply elem_of_cons in Hmem as [?|Hmem]; [contradiction|].
        revert Hmem. apply IH; auto.
      * apply IH; auto.
Qed.


(** No enemy appears, and no more enemies disappear than bullets do. *)
Lemma advance_bullets_count bs space :
  (enemy_count (fst (advance_bullets bs space [])) <= enemy_count space)%nat /\
  (enemy_count space + length (snd (advance_bullets bs space [])) <=
   enemy_count (fst (advance_bullets bs space [])) + length bs)%nat.
Proof.
  revert space. induction bs as [|b bs IH]; intros space.
  - simpl. lia.
  - advance_head b Ht He.
    + specialize (IH (put space (fst b - 1) (snd b) EMPTY)).
      pose proof (enemy_count_put_blank space (fst b - 1) (snd b) EMPTY
                    ltac:(discriminate)) as Hc.
      rewrite He, is_enemy_ENEMY in Hc. simpl. lia.
    + specialize (IH space). simpl. lia.
    + specialize (IH space). simpl. lia.
Qed.

Lemma advance_bullets_sized bs space :
  sized space -> sized (fst (advance_bullets bs space [])).
Proof.
  revert space. induction bs as [|b bs IH]; intros space Hs; [assumption|].
  advance_head b Ht He; simpl; auto using put_sized.
Qed.

Lemma advance_bullets_border_clear bs space :
  border_clear space -> border_clear (fst (advance_bullets bs space [])).
Proof.
  intros Hb r k Hrk.
  destruct (advance_bullets_cell bs space r k) as [->|(_ & -> & _)]; auto.
Qed.

Lemma advance_bullets_rising bs space :
  rising bs -> rising (snd (advance_bullets bs space [])).
Proof.
  unfold rising. revert space. induction bs as [|b bs IH]; intros space Hs.
  - constructor.
  - apply StronglySorted_cons in Hs as [Hall Hs].
    advance_head b Ht He; simpl; auto.
    apply StronglySorted_cons. split; [|auto].
    apply Forall_forall. intros b' Hin.
    apply advance_bullets_elem in Hin as (b0 & Hb0 & -> & _).
    rewrite Forall_forall in Hall. specialize (Hall b0 Hb0).
    unfold risen. simpl. lia.
Qed.

Lemma rising_NoDup bs : rising bs -> NoDup bs.
Proof.
  unfold rising. induction bs as [|b bs IH]; intros Hs; [constructor|].
  apply StronglySorted_cons in Hs as [Hall Hs].
  apply NoDup_cons. split; [|auto].
  intros Hin. rewrite Forall_forall in Hall. specialize (Hall b Hin). lia.
Qed.

(** *** Drawing the new marks *)

Lemma draw_bullets_cell bs space r k :
  cell (draw_bullets bs space) r k = cell space r k \/
  ((r, k) ∈ bs /\ cell (draw_bullets bs space) r k = BULLET).
Proof.
  revert space. induction bs as [|[br bk] bs IH]; intros space; simpl.
  - left. reflexivity.
  - destruct (IH (put space br bk BULLET)) as [Hs|[Hin Hm]].
    + rewrite Hs.
      destruct (cell_put_cases space br bk BULLET r k) as [->|[Heq ->]].
      * left. reflexivity.
      * right. inversion Heq; subst. split; [constructor|reflexivity].
    + right. split; [constructor|]; assumption.
Qed.

Lemma draw_bullets_other bs space r k :
  (r, k) ∉ bs -> cell (draw_bullets bs space) r k = cell space r k.
Proof.
  intros Hn. destruct (draw_bullets_cell bs space r k) as [?|[? _]]; [assumption|contradiction].
Qed.

Lemma draw_bullets_sized bs space : sized space -> sized (draw_bullets bs space).
Proof.
  revert space. induction bs as [|b bs IH]; intros space Hs; simpl; auto using put_sized.
Qed.

Lemma draw_bullets_mark bs space r k :
  sized space -> inside r k -> (r, k) ∈ bs ->
  cell (draw_bullets bs space) r k = BULLET.
Proof.
  revert space. induction bs as [|[br bk] bs IH]; intros space Hs Hrk Hin; simpl.
  - inversion Hin.
  - destruct (decide ((r, k) = (br, bk))) as [Heq|Hne].
    + inversion Heq; subst.
      destruct (draw_bullets_cell bs (put space br bk BULLET) br bk) as [->|[_ ?]];
        [|assumption].
      apply cell_put_same; assumption.
    + apply elem_of_cons in Hin as [?|Hin]; [contradiction|].
      apply IH; auto using put_sized.
Qed.

Lemma draw_bullets_border_clear bs space :
  Forall (fun b => ~ on_border (fst b) (snd b)) bs ->
  border_clear space -> border_clear (draw_bullets bs space).
Proof.
  intros Hall Hb r k Hrk.
  destruct (draw_bullets_cell bs space r k) as [->|[Hin _]]; [auto|].
  rewrite Forall_forall in Hall. apply Hall in Hin. contradiction.
Qed.

Lemma draw_bullets_count bs space :
  (forall b, b ∈ bs -> cell space (fst b) (snd b) <> ENEMY) ->
  enemy_count (draw_bullets bs space) = enemy_count space.
Proof.
  revert space. induction bs as [|b bs IH]; intros space Hfree; simpl; [reflexivity|].
  rewrite IH.
  - pose proof (enemy_count_put_blank space (fst b) (snd b) BULLET ltac:(discriminate)) as Hc.
    rewrite is_enemy_other in Hc by (apply Hfree; constructor). lia.
  - intros b0 Hb0.
    destruct (cell_put_cases space (fst b) (snd b) BULLET (fst b0) (snd b0)) as [->|[_ ->]].
    + apply Hfree. constructor. assumption.
    + discriminate.
Qed.

End BulletFacts.

(** ** One iteration *)

Section TickFacts.

Implicit Types (g : game) (inp : input) (w : world) (space : board).

Lemma mbind_eq {A B} (m : M A) (k : A -> M B) w :
  (m ≫= k) w = match m w with
               | Ret a w' => k a w'
               | Exit status w' => Exit status w'
               end.
Proof. reflexivity. Qed.

Lemma steer_cases move position w :
  (move = "q"%char /\
   steer move position w = Exit 0 (printed [String.append "Quit." NL] (restored w))) \/
  (move <> "q"%char /\ steer move position w = Ret (steered move position) w).
Proof.
  unfold steer, steered.
  destruct (Ascii.eqb_spec move "a") as [->|Ha]; [right; split; [discriminate|reflexivity]|].
  destruct (Ascii.eqb_spec move "d") as [->|Hd]; [right; split; [discriminate|reflexivity]|].
  destruct (Ascii.eqb_spec move "q") as [->|Hq].
  - left. split; reflexivity.
  - right. split; [assumption|reflexivity].
Qed.

Lemma steered_range move position :
  1 <= position <= COLS - 2 -> 1 <= steered move position <= COLS - 2.
Proof.
  unfold steered, COLS. intros H.
  destruct (Ascii.eqb move "a"); [destruct (Z.ltb_spec 1 position); lia|].
  destruct (Ascii.eqb move "d"); [destruct (Z.ltb_spec position (160 - 2)); lia|].
  assumption.
Qed.

Lemma you_lost_eq {A} w :
  @you_lost A w = Exit 0 (printed [CLEAR; String.append "You lost" NL] (restored w)).
Proof.
  unfold you_lost, printed, restored, mbind, M_bind, set_terminal_raw_mode,
    set_non_blocking_input, print, exit. simpl.
  rewrite <- app_assoc. reflexivity.
Qed.

Lemma update_board_cases space w :
  (exists b, descend space = Descended b /\ update_board space w = Ret b w) \/
  (exists b, descend space = Landed b /\
             update_board space w =
             Exit 0 (printed [CLEAR; String.append "You lost" NL] (restored w))).
Proof.
  unfold update_board. destruct (descend space) as [b|b].
  - left. exists b. split; reflexivity.
  - right. exists b. split; [reflexivity|]. apply you_lost_eq.
Qed.

Lemma print_board_eq space w :
  print_board space w = Ret tt (printed [CLEAR; frame space] w).
Proof.
  unfold print_board, printed, mbind, M_bind, print. simpl.
  rewrite <- app_assoc. reflexivity.
Qed.

Lemma bullet_step_eq bs space :
  bullet_step bs space =
  (draw_bullets (snd (advance_bullets bs (erase_bullets bs space) []))
                (fst (advance_bullets bs (erase_bullets bs space) [])),
   snd (advance_bullets bs (erase_bullets bs space) [])).
Proof.
  unfold bullet_step. destruct (advance_bullets _ _ _). reflexivity.
Qed.

(** The three ways an iteration can end. *)
Lemma tick_cases inp g w :
  (key inp = "q"%char /\
   tick inp g w = Exit 0 (printed [String.append "Quit." NL] (restored w))) \/
  (key inp <> "q"%char /\ descent_due inp g = true /\
   (exists b, descend (before_descent inp g) = Landed b) /\
   tick inp g w = Exit 0 (printed [CLEAR; String.append "You lost" NL] (restored w))) \/
  (key inp <> "q"%char /\
   exists space3,
     (if descent_due inp g then descend (before_descent inp g) = Descended space3
      else space3 = before_descent inp g) /\
     tick inp g w =
     Ret (next_game inp g space3)
         (printed [CLEAR; frame (space (next_game inp g space3))] w)).
Proof.
  unfold tick, next_game, before_descent, descent_due.
  destruct (fire (now inp) g) as [bullets1 lbt1] eqn:Hfire.
  rewrite mbind_eq.
  destruct (steer_cases (key inp) (shooter_position g) w) as [[Hq ->]|[Hq ->]].
  - left. split; [assumption|reflexivity].
  - right.
    destruct (deploy (now inp) (rnd inp) (last_deploy_time g) _) as [space2 ldt1] eqn:Hdep.
    rewrite mbind_eq. simpl fst. simpl snd.
    destruct (500 <=? milliseconds (now inp - last_frame_time g)) eqn:Hdue.
    + rewrite mbind_eq.
      destruct (update_board_cases space2 w) as [(b & Hd & ->)|(b & Hd & ->)].
      * right. split; [assumption|]. exists b. split; [assumption|].
        unfold mret, M_ret. cbv beta. cbn [fst snd].
        destruct (bullet_step bullets1 b) as [space4 nb] eqn:Hstep.
        rewrite mbind_eq, print_board_eq. reflexivity.
      * left. repeat split; eauto.
    + right. split; [assumption|]. exists space2. split; [reflexivity|].
      unfold mret, M_ret. cbv beta. cbn [fst snd].
      destruct (bullet_step bullets1 space2) as [space4 nb] eqn:Hstep.
      rewrite mbind_eq, print_board_eq. reflexivity.
Qed.

(** *** The invariant of the loop *)

Lemma place_shooter_sized space p q : sized space -> sized (place_shooter space p q).
Proof. unfold place_shooter. auto using put_sized. Qed.

Lemma place_shooter_border_clear space p q :
  1 <= p <= COLS - 2 -> 1 <= q <= COLS - 2 ->
  border_clear space -> border_clear (place_shooter space p q).
Proof.
  intros Hp Hq Hb. unfold place_shooter.
  apply put_border_clear; [|apply put_border_clear; auto].
  unfold on_border, ROWS, COLS in *. lia.
Qed.

Lemma place_shooter_cell space p q :
  sized space -> 1 <= q <= COLS - 2 -> cell (place_shooter space p q) 28 q = SHOOTER.
Proof.
  intros Hs Hq. unfold place_shooter. apply cell_put_same; auto using put_sized.
  unfold inside, ROWS, COLS in *. lia.
Qed.

Lemma deploy_sized t c l space : sized space -> sized (fst (deploy t c l space)).
Proof. unfold deploy. destruct (2 <=? _); simpl; auto using put_sized. Qed.

Lemma deploy_border_clear t c l space :
  1 <= c <= 158 -> border_clear space -> border_clear (fst (deploy t c l space)).
Proof.
  intros Hc Hb. unfold deploy. destruct (2 <=? _); simpl; [|assumption].
  apply put_border_clear; [|assumption]. unfold on_border, ROWS, COLS. lia.
Qed.

(** Deployment writes to row 1 only. *)
Lemma deploy_cell t c l space r k :
  r <> 1 -> cell (fst (deploy t c l space)) r k = cell space r k.
Proof.
  intros Hr. unfold deploy. destruct (2 <=? _); simpl; [|reflexivity].
  apply cell_put_other. intros Heq. inversion Heq. contradiction.
Qed.

Lemma before_descent_sized inp g : sized (space g) -> sized (before_descent inp g).
Proof. intros. unfold before_descent. auto using deploy_sized, place_shooter_sized. Qed.

Lemma before_descent_border_clear inp g :
  tidy g -> valid_input inp -> border_clear (before_descent inp g).
Proof.
  intros (Hs & Hb & Hp & _ & _) Hv. unfold before_descent.
  apply deploy_border_clear; [exact Hv|].
  apply place_shooter_border_clear; auto using steered_range.
Qed.

Lemma before_descent_shooter inp g :
  sized (space g) -> 1 <= shooter_position g <= COLS - 2 ->
  cell (before_descent inp g) 28 (steered (key inp) (shooter_position g)) = SHOOTER.
Proof.
  intros Hs Hp. unfold before_descent.
  rewrite deploy_cell by lia.
  apply place_shooter_cell; auto using steered_range.
Qed.

(** After the firing gate every bullet is strictly inside the border and
    not below row 27. *)
Lemma fire_bullets t g :
  tidy g ->
  Forall (fun b => 1 <= fst b <= 27 /\ 1 <= snd b <= COLS - 2) (fst (fire t g)).
Proof.
  intros (_ & _ & Hp & Hbs & _). unfold fire.
  assert (Forall (fun b => 1 <= fst b <= 27 /\ 1 <= snd b <= COLS - 2) (bullets g)) as Hold.
  { eapply Forall_impl; [exact Hbs|]. unfold in_flight. intros b. simpl. lia. }
  destruct (100 <=? _); simpl; [|assumption].
  apply Forall_app. split; [assumption|].
  constructor; [|constructor]. simpl. lia.
Qed.

Lemma fire_rising t g : tidy g -> rising (fst (fire t g)).
Proof.
  intros (_ & _ & _ & Hbs & Hr). unfold fire, rising in *.
  destruct (100 <=? _); simpl; [|assumption].
  apply StronglySorted_app. split; [|split; [assumption|repeat constructor]].
  intros b1 b2 H1 H2. rewrite Forall_forall in Hbs. apply Hbs in H1.
  apply list_elem_of_singleton in H2. subst. unfold in_flight in H1. simpl. lia.
Qed.

Lemma bullet_step_rising bs space : rising bs -> rising (snd (bullet_step bs space)).
Proof. intros. rewrite bullet_step_eq. simpl. apply advance_bullets_rising. assumption. Qed.

Lemma bullet_step_sized bs space : sized space -> sized (fst (bullet_step bs space)).
Proof.
  intros Hs. rewrite bullet_step_eq. simpl.
  auto using draw_bullets_sized, advance_bullets_sized, erase_bullets_sized.
Qed.

Lemma bullet_step_in_flight bs space :
  Forall (fun b => 1 <= fst b <= 27 /\ 1 <= snd b <= COLS - 2) bs ->
  Forall in_flight (snd (bullet_step bs space)).
Proof.
  intros Hbs. rewrite bullet_step_eq. simpl.
  apply Forall_forall. intros b' Hin.
  apply advance_bullets_elem in Hin as (b & Hb & -> & Hr & _).
  rewrite Forall_forall in Hbs. apply Hbs in Hb.
  unfold in_flight, risen in *. simpl in *. lia.
Qed.

Lemma bullet_step_border_clear bs space :
  Forall (fun b => 1 <= fst b <= 27 /\ 1 <= snd b <= COLS - 2) bs ->
  border_clear space -> border_clear (fst (bullet_step bs space)).
Proof.
  intros Hbs Hb. pose proof (bullet_step_in_flight bs space Hbs) as Hnew.
  rewrite bullet_step_eq in *. simpl in *.
  apply draw_bullets_border_clear.
  - eapply Forall_impl; [exact Hnew|].
    intros b. unfold in_flight, on_border, ROWS, COLS. lia.
  - auto using advance_bullets_border_clear, erase_bullets_border_clear.
Qed.

Lemma next_game_tidy inp g space3 :
  tidy g -> sized space3 -> border_clear space3 -> tidy (next_game inp g space3).
Proof.
  intros Hg Hs Hb. pose proof Hg as (_ & _ & Hp & _).
  pose proof (fire_bullets (now inp) g Hg) as Hf.
  unfold tidy, next_game. simpl.
  pose proof (fire_rising (now inp) g Hg) as Hfr.
  repeat split;
    auto using bullet_step_sized, bullet_step_border_clear, bullet_step_in_flight,
      bullet_step_rising; try apply steered_range; try apply bullet_step_sized; auto.
Qed.

(** What the descent gate lets through is a board of the right size with
    a blank border. *)
Lemma descent_gate_tidy inp g space3 :
  tidy g -> valid_input inp ->
  (if descent_due inp g then descend (before_descent inp g) = Descended space3
   else space3 = before_descent inp g) ->
  sized space3 /\ border_clear space3.
Proof.
  intros Hg Hv Hgate. pose proof Hg as (Hs & _).
  pose proof (before_descent_sized inp g Hs) as Hs2.
  pose proof (before_descent_border_clear inp g Hg Hv) as Hb2.
  destruct (descent_due inp g).
  - split.
    + pose proof (descend_final_sized _ Hs2) as H. rewrite Hgate in H. exact H.
    + eapply descend_border_clear; eauto.
  - subst. auto.
Qed.

Lemma tick_tidy inp g w g' w' :
  tidy g -> valid_input inp -> tick inp g w = Ret g' w' -> tidy g'.
Proof.
  intros Hg Hv Ht.
  destruct (tick_cases inp g w) as [[_ He]|[(_ & _ & _ & He)|(_ & space3 & Hgate & He)]];
    rewrite He in Ht; try discriminate.
  inversion Ht; subst.
  destruct (descent_gate_tidy inp g space3 Hg Hv Hgate).
  apply next_game_tidy; assumption.
Qed.

Lemma game_start_tidy t0 t1 t2 : tidy (game_start t0 t1 t2).
Proof.
  unfold tidy, game_start. simpl.
  split; [apply fresh_board_sized|].
  split; [apply fresh_board_border_clear|].
  split; [unfold COLS; lia|]. split; constructor.
Qed.

Lemma reachable_tidy g : reachable g -> tidy g.
Proof.
  induction 1 as [t0 t1 t2|g inp w g' w' _ IH Hv Ht].
  - apply game_start_tidy.
  - eapply tick_tidy; eauto.
Qed.

End TickFacts.

(** ** The whole run *)

Section RunFacts.

Implicit Types (g : game) (inp : input) (w : world) (inputs : list input).

Lemma loop_app pre rest g w :
  loop (pre ++ rest) g w =
  match loop pre g w with
  | Ret g1 w1 => loop rest g1 w1
  | Exit status w1 => Exit status w1
  end.
Proof.
  revert g w. induction pre as [|inp pre IH]; intros g w; simpl.
  - reflexivity.
  - rewrite !mbind_eq. destruct (tick inp g w); [apply IH|reflexivity].
Qed.

(** A run that ends does so in one iteration, after a prefix of
    iterations that all returned; the input after it is never read. *)
Lemma loop_Exit inputs g w status w' :
  loop inputs g w = Exit status w' ->
  exists pre inp post g1 w1,
    inputs = pre ++ inp :: post /\
    loop pre g w = Ret g1 w1 /\
    tick inp g1 w1 = Exit status w'.
Proof.
  revert g w. induction inputs as [|inp inputs IH]; intros g w; simpl.
  - discriminate.
  - rewrite mbind_eq. destruct (tick inp g w) as [g1 w1|s w1] eqn:Ht.
    + intros Hl. destruct (IH _ _ Hl) as (pre & inp' & post & g2 & w2 & -> & Hpre & Hex).
      exists (inp :: pre), inp', post, g2, w2. repeat split; auto.
      simpl. rewrite mbind_eq, Ht. assumption.
    + intros Heq. inversion Heq; subst.
      exists [], inp, inputs, g, w. repeat split; auto.
Qed.

Lemma loop_reachable inputs g w g' w' :
  reachable g -> Forall valid_input inputs ->
  loop inputs g w = Ret g' w' -> reachable g'.
Proof.
  revert g w. induction inputs as [|inp inputs IH]; intros g w Hg Hv; simpl.
  - intros Heq. inversion Heq; subst. assumption.
  - rewrite mbind_eq. destruct (tick inp g w) as [g1 w1|s w1] eqn:Ht; [|discriminate].
    inversion Hv; subst. apply IH; auto. eapply reach_tick; eauto.
Qed.

(** An iteration that returns has repainted the screen and touched
    nothing else of the world. *)
Lemma tick_Ret_world inp g w g' w' :
  tick inp g w = Ret g' w' -> w' = printed [CLEAR; frame (space g')] w.
Proof.
  intros Ht.
  destruct (tick_cases inp g w) as [[_ He]|[(_ & _ & _ & He)|(_ & space3 & _ & He)]];
    rewrite He in Ht; try discriminate.
  inversion Ht; subst. reflexivity.
Qed.

Lemma loop_Ret_world inputs g w g' w' :
  loop inputs g w = Ret g' w' ->
  tty w' = tty w /\ fd_flags w' = fd_flags w /\ oldt w' = oldt w.
Proof.
  revert g w. induction inputs as [|inp inputs IH]; intros g w; simpl.
  - intros Heq. inversion Heq; subst. auto.
  - rewrite mbind_eq. destruct (tick inp g w) as [g1 w1|s w1] eqn:Ht; [|discriminate].
    intros Hl. apply IH in Hl as (-> & -> & ->).
    apply tick_Ret_world in Ht. subst. auto.
Qed.

Lemma last_two {A} (l : list A) a b : last (l ++ [a; b]) = Some b.
Proof.
  replace (l ++ [a; b]) with ((l ++ [a]) ++ [b]) by (rewrite <- app_assoc; reflexivity).
  apply last_snoc.
Qed.

Lemma land_lor_lnot a b : Z.land (Z.lor a b) (Z.lnot b) = Z.land a (Z.lnot b).
Proof.
  apply Z.bits_inj'. intros n Hn.
  rewrite !Z.land_spec, Z.lor_spec, Z.lnot_spec by assumption.
  destruct (Z.testbit a n), (Z.testbit b n); reflexivity.
Qed.

Lemma land_lnot_off a b : Z.land (Z.land a (Z.lnot b)) b = 0.
Proof.
  apply Z.bits_inj'. intros n Hn.
  rewrite !Z.land_spec, Z.lnot_spec, Z.bits_0 by assumption.
  destruct (Z.testbit a n), (Z.testbit b n); reflexivity.
Qed.

Lemma main_eq t0 t1 t2 inputs w :
  main t0 t1 t2 inputs w =
  loop inputs (game_start t0 t1 t2)
    {| tty := {| c_iflag := c_iflag (tty w); c_oflag := c_oflag (tty w);
                 c_cflag := c_cflag (tty w);
                 c_lflag := Z.land (c_lflag (tty w)) (Z.lnot (Z.lor ICANON ECHO)) |};
       fd_flags := Z.lor (fd_flags w) O_NONBLOCK;
       oldt := tty w;
       newt := {| c_iflag := c_iflag (tty w); c_oflag := c_oflag (tty w);
                  c_cflag := c_cflag (tty w);
                  c_lflag := Z.land (c_lflag (tty w)) (Z.lnot (Z.lor ICANON ECHO)) |};
       cout := cout w |}.
Proof. reflexivity. Qed.

Lemma tick_Exit inp g w status w' :
  tick inp g w = Exit status w' ->
  status = 0 /\
  ((key inp = "q"%char /\ w' = printed [String.append "Quit." NL] (restored w)) \/
   (key inp <> "q"%char /\ descent_due inp g = true /\
    (exists b, descend (before_descent inp g) = Landed b) /\
    w' = printed [CLEAR; String.append "You lost" NL] (restored w))).
Proof.
  intros Ht.
  destruct (tick_cases inp g w) as [[Hq He]|[(Hq & Hd & Hl & He)|(_ & space3 & _ & He)]];
    rewrite He in Ht; try discriminate; inversion Ht; subst; auto 6.
Qed.

End RunFacts.

(** ** Running the model on concrete input *)

Section Examples.

Lemma valid_inputs_check inputs :
  forallb valid_inputb inputs = true -> Forall valid_input inputs.
Proof.
  induction inputs as [|inp inputs IH]; simpl; intros H; [constructor|].
  apply andb_true_iff in H as [Hv H]. constructor; [|auto].
  unfold valid_inputb in Hv. apply andb_true_iff in Hv as [H1 H2].
  apply Z.leb_le in H1, H2. split; assumption.
Qed.

Lemma ran_reachable inputs g :
  forallb valid_inputb inputs = true -> ran inputs = Some g -> reachable g.
Proof.
  unfold ran. intros Hv Hr.
  destruct (loop inputs (game_start 0 0 0) cooked_world) as [g' w'|] eqn:Hl; [|discriminate].
  inversion Hr; subst.
  eapply loop_reachable; [apply reach_start|apply valid_inputs_check; exact Hv|exact Hl].
Qed.

Lemma game_after_reachable inputs :
  forallb valid_inputb inputs = true -> still_running inputs = true ->
  reachable (game_after inputs).
Proof.
  unfold still_running, game_after. intros Hv Hrun.
  destruct (ran inputs) as [g|] eqn:Hg; [|discriminate]. simpl.
  eapply ran_reachable; eauto.
Qed.

Lemma landed_final d : landed d = true -> d = Landed (final d).
Proof. destruct d; [discriminate|reflexivity]. Qed.


Lemma landing_game_reachable : reachable (game_after landing_inputs).
Proof.
  apply game_after_reachable; vm_compute; reflexivity.
Qed.

Lemma under_game_reachable : reachable (game_after under_inputs).
Proof.
  apply game_after_reachable; vm_compute; reflexivity.
Qed.

(** Two enemies one above the other over a blank cell: the rows are
    visited from the bottom up, so the lower one moves first and the
    upper one, whose cell below is blank by the time it is visited,
    follows it; each has moved one row. *)
Example stacked_enemies_descend_together :
  let b := put (put (fresh_board ROWS COLS) 5 80 ENEMY) 6 80 ENEMY in
  descend b = Descended (put (put (fresh_board ROWS COLS) 6 80 ENEMY) 7 80 ENEMY).
Proof. vm_compute. reflexivity. Qed.

End Examples.

(** ** The bullet loops as one step *)

Section BulletStepFacts.

Implicit Types (space : board) (b : bullet) (bs : list bullet) (r k : Z).

(** A cell that holds neither a mark nor an enemy, and that no bullet
    moves into, is left as it is. *)
Lemma bullet_step_cell_kept bs space r k :
  cell space r k <> BULLET -> cell space r k <> ENEMY ->
  (r, k) ∉ snd (bullet_step bs space) ->
  cell (fst (bullet_step bs space)) r k = cell space r k.
Proof.
  rewrite bullet_step_eq. simpl. intros Hm He Hn.
  rewrite draw_bullets_other by assumption.
  destruct (erase_bullets_cell bs space r k) as [Hs|(? & _)]; [|contradiction].
  destruct (advance_bullets_cell bs (erase_bullets bs space) r k) as [->|(Hc & _)];
    [assumption|]. rewrite Hs in Hc. contradiction.
Qed.

Lemma bullet_step_count bs space :
  (enemy_count (fst (bullet_step bs space)) <= enemy_count space)%nat /\
  (enemy_count space + length (snd (bullet_step bs space)) <=
   enemy_count (fst (bullet_step bs space)) + length bs)%nat.
Proof.
  rewrite bullet_step_eq. simpl.
  rewrite draw_bullets_count.
  - pose proof (advance_bullets_count bs (erase_bullets bs space)) as H.
    rewrite erase_bullets_count in H. exact H.
  - intros b Hb. apply advance_bullets_elem in Hb as (_ & _ & _ & _ & ?). assumption.
Qed.


Lemma bullet_step_kill bs space b :
  NoDup bs -> b ∈ bs -> 1 <= fst b - 1 -> cell space (fst b - 1) (snd b) = ENEMY ->
  (risen b ∉ snd (bullet_step bs space)) /\
  cell (fst (bullet_step bs space)) (fst b - 1) (snd b) = EMPTY.
Proof.
  intros Hnd Hin Hr He. rewrite bullet_step_eq. simpl.
  assert (cell (erase_bullets bs space) (fst b - 1) (snd b) = ENEMY) as He'.
  { destruct (erase_bullets_cell bs space (fst b - 1) (snd b)) as [->|(Hm & _)];
      [assumption|]. rewrite He in Hm. discriminate. }
  pose proof (advance_bullets_killed_gone bs _ b Hnd Hin Hr He') as Hgone.
  split; [assumption|].
  rewrite draw_bullets_other by exact Hgone.
  apply advance_bullets_kill; assumption.
Qed.

Lemma bullet_step_move bs space b :
  b ∈ bs -> 1 <= fst b - 1 -> cell space (fst b - 1) (snd b) <> ENEMY ->
  risen b ∈ snd (bullet_step bs space) /\
  (sized space -> inside (fst b - 1) (snd b) ->
   cell (fst (bullet_step bs space)) (fst b - 1) (snd b) = BULLET).
Proof.
  intros Hin Hr He. rewrite bullet_step_eq. simpl.
  assert (cell (erase_bullets bs space) (fst b - 1) (snd b) <> ENEMY) as He'.
  { destruct (erase_bullets_cell bs space (fst b - 1) (snd b)) as [->|(_ & -> & _)];
      [assumption|discriminate]. }
  pose proof (advance_bullets_survive bs _ b Hin Hr He') as Hmem.
  split; [assumption|].
  intros Hs Hrk. apply draw_bullets_mark;
    auto using advance_bullets_sized, erase_bullets_sized.
Qed.


(** The board handed to the descent gate holds enemies in row 1 only
    when the board of the state held none. *)
Lemma before_descent_enemy inp g r k :
  (forall i j, cell (space g) i j <> ENEMY) ->
  cell (before_descent inp g) r k = ENEMY -> r = 1.
Proof.
  intros Hfree He. destruct (decide (r = 1)) as [|Hr]; [assumption|exfalso].
  unfold before_descent in He. rewrite deploy_cell in He by assumption.
  unfold place_shooter in He.
  destruct (cell_put_cases (put (space g) 28 (shooter_position g) EMPTY) 28
              (steered (key inp) (shooter_position g)) SHOOTER r k) as [Heq|[_ Heq]];
    rewrite Heq in He; [|discriminate].
  destruct (cell_put_cases (space g) 28 (shooter_position g) EMPTY r k) as [Heq'|[_ Heq']];
    rewrite Heq' in He; [|discriminate].
  apply (Hfree r k). assumption.
Qed.

End BulletStepFacts.

(** ** Bits of the terminal flags *)

Section BitFacts.

Lemma land_lnot_lor_l a b c : Z.land (Z.land a (Z.lnot (Z.lor b c))) b = 0.
Proof.
  apply Z.bits_inj'. intros n Hn.
  rewrite !Z.land_spec, Z.lnot_spec, Z.lor_spec, Z.bits_0 by assumption.
  destruct (Z.testbit a n), (Z.testbit b n), (Z.testbit c n); reflexivity.
Qed.

Lemma land_lnot_lor_r a b c : Z.land (Z.land a (Z.lnot (Z.lor b c))) c = 0.
Proof. rewrite (Z.lor_comm b c). apply land_lnot_lor_l. Qed.

Lemma land_lnot_testbit a m n :
  0 <= n -> Z.testbit m n = false ->
  Z.testbit (Z.land a (Z.lnot m)) n = Z.testbit a n.
Proof.
  intros Hn Hm. rewrite Z.land_spec, Z.lnot_spec, Hm by assumption.
  apply andb_true_r.
Qed.

Lemma lor_testbit a m n :
  Z.testbit m n = false -> Z.testbit (Z.lor a m) n = Z.testbit a n.
Proof. intros Hm. rewrite Z.lor_spec, Hm. apply orb_false_r. Qed.

Lemma land_lor_same a m : Z.land (Z.lor a m) m = m.
Proof.
  apply Z.bits_inj'. intros n Hn. rewrite Z.land_spec, Z.lor_spec.
  destruct (Z.testbit a n), (Z.testbit m n); reflexivity.
Qed.

Lemma land_lnot_fixed a m : Z.land a (Z.lnot m) = a <-> Z.land a m = 0.
Proof.
  split; intros H.
  - rewrite <- H. apply land_lnot_off.
  - apply Z.bits_inj'. intros n Hn.
    assert (Z.testbit (Z.land a m) n = false) as Hz by (rewrite H; apply Z.bits_0).
    rewrite Z.land_spec in Hz. rewrite Z.land_spec, Z.lnot_spec by assumption.
    destruct (Z.testbit a n), (Z.testbit m n); simpl in *; congruence.
Qed.

Lemma termios_lflag_eq t l :
  {| c_iflag := c_iflag t; c_oflag := c_oflag t; c_cflag := c_cflag t; c_lflag := l |} = t
  <-> l = c_lflag t.
Proof.
  destruct t as [i o c l0]. simpl. split; intros H.
  - inversion H. reflexivity.
  - subst. reflexivity.
Qed.

End BitFacts.

(** ** Enemies that move, enemies that are hit *)

Section AdvanceFacts.

Implicit Types (space b : board) (i j r k : Z).

Lemma descend_rows_app rs1 rs2 js space :
  descend_rows (rs1 ++ rs2) js space =
  match descend_rows rs1 js space with
  | Descended b => descend_rows rs2 js b
  | Landed b => Landed b
  end.
Proof.
  revert space. induction rs1 as [|i rs1 IH]; intros space; simpl; [reflexivity|].
  destruct (descend_row js i space); [apply IH|reflexivity].
Qed.

(** A property every visited cell preserves holds at the end of loops
    over any rows and columns. *)
Lemma descend_rows_keep (P : board -> Prop) rs js space b' :
  (forall i j b, i ∈ rs -> j ∈ js -> P b -> P (descend_cell b i j)) ->
  P space -> descend_rows rs js space = Descended b' -> P b'.
Proof.
  revert space. induction rs as [|i rs IH]; intros space Hstep HP Hd; simpl in Hd.
  - inversion Hd; subst. assumption.
  - pose proof (descend_row_inv P i js space) as Hrow.
    destruct (descend_row js i space) as [b1|b1]; [|discriminate].
    apply (IH b1); [| |assumption].
    + intros i0 j b Hi Hj. apply Hstep; [constructor|]; assumption.
    + apply Hrow; [|assumption]. intros b j Hj Hb _. apply Hstep; [constructor| |]; assumption.
Qed.

(** The inner loop moves the enemy of a column it visits, if the cell
    below is blank. *)
Lemma descend_row_moves js i j space b' :
  sized space -> inside i j -> inside (i + 1) j -> j ∈ js ->
  cell space i j = ENEMY -> cell space (i + 1) j = EMPTY ->
  descend_row js i space = Descended b' ->
  cell b' i j = EMPTY /\ cell b' (i + 1) j = ENEMY.
Proof.
  revert space. induction js as [|j0 js IH]; intros space Hs Hij Hij' Hin He Hb Hd.
  - inversion Hin.
  - simpl in Hd.
    destruct (reached_bottom (descend_cell space i j0) j0); [discriminate|].
    destruct (decide (j0 = j)) as [->|Hne].
    + assert (cell (descend_cell space i j) i j = EMPTY /\
              cell (descend_cell space i j) (i + 1) j = ENEMY) as Hmoved.
      { destruct (descend_cell_cases space i j) as [[_ Hno]|(_ & _ & ->)]; [tauto|].
        split.
        - rewrite cell_put_other by (intros Hc; inversion Hc; lia).
          apply cell_put_same; assumption.
        - apply cell_put_same; auto using put_sized. }
      pose proof (descend_row_inv
        (fun b => cell b i j = EMPTY /\ cell b (i + 1) j = ENEMY) i js
        (descend_cell space i j)) as Hrow.
      rewrite Hd in Hrow. apply Hrow; [|assumption].
      intros b j1 _ [H1 H2] _. split.
      * destruct (descend_cell_change b i j1 i j) as [->|(_ & _ & [[_ Hc]|[Hc _]])];
          [assumption|assumption|]. inversion Hc; lia.
      * destruct (descend_cell_change b i j1 (i + 1) j) as [->|(_ & _ & [[Hc _]|[_ Hc]])];
          [assumption| |assumption]. inversion Hc; lia.
    + apply (IH (descend_cell space i j0)); auto using descend_cell_sized.
      * apply elem_of_cons in Hin as [?|?]; [congruence|assumption].
      * rewrite descend_cell_other; [assumption| |]; intros Hc; inversion Hc; congruence.
      * rewrite descend_cell_other; [assumption| |]; intros Hc; inversion Hc; congruence.
Qed.

Lemma elem_of_rev (x : Z) (l : list Z) : x ∈ rev l <-> x ∈ l.
Proof. rewrite !list_elem_of_In. symmetry. apply in_rev. Qed.

Lemma rev_seqZ_split (n m : nat) :
  (m <= n)%nat ->
  rev (seqZ 1 (Z.of_nat n)) =
  rev (seqZ (Z.of_nat m + 1) (Z.of_nat (n - m))) ++ rev (seqZ 1 (Z.of_nat m)).
Proof.
  intros Hle. rewrite <- rev_app_distr. f_equal.
  replace (Z.of_nat n) with (Z.of_nat m + Z.of_nat (n - m)) by lia.
  rewrite seqZ_app by lia. f_equal. f_equal; lia.
Qed.

(** The rows of a board of the size of [main], split around row [i]. *)
Lemma row_order_split (i : nat) :
  (1 <= i <= 28)%nat ->
  rev (seqZ 1 (Z.of_nat 28)) =
  rev (seqZ (Z.of_nat i + 1) (Z.of_nat (28 - i)))
  ++ Z.of_nat i :: rev (seqZ 1 (Z.of_nat (i - 1))).
Proof.
  intros Hi. rewrite (rev_seqZ_split 28 i) by lia. f_equal.
  replace i with (S (i - 1)) at 1 by lia. rewrite rev_seqZ_S.
  f_equal. lia.
Qed.

(** The bullet loops take an enemy away only from the cell right above a
    bullet of the list. *)
Lemma bullet_step_enemy bs space r k :
  cell space r k = ENEMY ->
  (cell (fst (bullet_step bs space)) r k = ENEMY <-> ~ ((r + 1, k) ∈ bs /\ 1 <= r)).
Proof.
  intros He. rewrite bullet_step_eq. simpl.
  assert (cell (erase_bullets bs space) r k = ENEMY) as He'.
  { destruct (erase_bullets_cell bs space r k) as [->|(Hm & _)]; [assumption|].
    rewrite He in Hm. discriminate. }
  split.
  - intros Hstill [Hin Hr].
    pose proof (advance_bullets_kill bs (erase_bullets bs space) (r + 1, k) Hin) as Hk.
    simpl in Hk. replace (r + 1 - 1) with r in Hk by lia.
    specialize (Hk Hr He').
    destruct (draw_bullets_cell (snd (advance_bullets bs (erase_bullets bs space) []))
                (fst (advance_bullets bs (erase_bullets bs space) [])) r k) as [Heq|[_ Heq]];
      rewrite Heq in Hstill; [rewrite Hk in Hstill|]; discriminate.
  - intros Hno.
    assert (cell (fst (advance_bullets bs (erase_bullets bs space) [])) r k = ENEMY) as Hadv.
    { destruct (advance_bullets_cell bs (erase_bullets bs space) r k)
        as [->|(_ & _ & Hin & Hr)]; [assumption|]. exfalso. apply Hno. auto. }
    rewrite draw_bullets_other; [assumption|].
    intros Hin. apply advance_bullets_elem in Hin as (_ & _ & _ & _ & Hfree).
    simpl in Hfree. contradiction.
Qed.

End AdvanceFacts.

(** ** Enemies one above the other *)

Section StackFacts.

Implicit Types (space b : board) (i j r k : Z).

(** The rule of the outer loop for a descent that runs to its end: what
    holds before row [i] is visited gives, once the inner loop has gone
    through that row, what holds before row [i - 1] is. *)
Lemma descend_rows_ind (P : Z -> board -> Prop) js (n : nat) space b' :
  (forall i b b1, 1 <= i <= Z.of_nat n -> P i b ->
     descend_row js i b = Descended b1 -> P (i - 1) b1) ->
  P (Z.of_nat n) space ->
  descend_rows (rev (seqZ 1 (Z.of_nat n))) js space = Descended b' -> P 0 b'.
Proof.
  revert space. induction n as [|n IH]; intros space Hstep HP Hd.
  - simpl in Hd. inversion Hd; subst. assumption.
  - rewrite rev_seqZ_S in Hd. cbn [descend_rows] in Hd.
    destruct (descend_row js (Z.of_nat (S n)) space) as [b1|b1] eqn:Hrow; [|discriminate].
    apply (IH b1); [| |assumption].
    + intros i b b2 Hi. apply Hstep. lia.
    + replace (Z.of_nat n) with (Z.of_nat (S n) - 1) by lia.
      apply (Hstep _ space); [lia|assumption|assumption].
Qed.

Lemma descend_row_sized js i space b' :
  sized space -> descend_row js i space = Descended b' -> sized b'.
Proof.
  intros Hs Hd. pose proof (descend_row_inv sized i js space) as H.
  rewrite Hd in H. apply H; [|assumption].
  intros. apply descend_cell_sized. assumption.
Qed.

(** The inner loop touches rows [i] and [i + 1] only. *)
Lemma descend_row_other js i space b' r k :
  r <> i -> r <> i + 1 ->
  descend_row js i space = Descended b' -> cell b' r k = cell space r k.
Proof.
  intros H1 H2 Hd.
  pose proof (descend_row_inv (fun b => cell b r k = cell space r k) i js space) as H.
  rewrite Hd in H. apply H; [|reflexivity].
  intros b j _ Hb _. rewrite descend_cell_other; [assumption| |]; intros Hc; inversion Hc; lia.
Qed.

(** It leaves a column alone in which it finds no enemy over a blank. *)
Lemma descend_row_stays js i k space b' :
  ~ (cell space i k = ENEMY /\ cell space (i + 1) k = EMPTY) ->
  descend_row js i space = Descended b' ->
  cell b' i k = cell space i k /\ cell b' (i + 1) k = cell space (i + 1) k.
Proof.
  intros Hno Hd.
  pose proof (descend_row_inv
    (fun b => cell b i k = cell space i k /\ cell b (i + 1) k = cell space (i + 1) k)
    i js space) as H.
  rewrite Hd in H. apply H; [|auto].
  intros b j _ [H1 H2] _.
  destruct (descend_cell_change b i j i k) as [Ha|(Hsrc & Hdst & [[Hc _]|[Hc _]])].
  - destruct (descend_cell_change b i j (i + 1) k) as [Hb|(Hsrc & Hdst & [[Hc _]|[Hc _]])].
    + split; congruence.
    + inversion Hc; lia.
    + inversion Hc; subst. exfalso. apply Hno. split; congruence.
  - inversion Hc; subst. exfalso. apply Hno. split; congruence.
  - inversion Hc; lia.
Qed.

(** A vertical run of enemies that stands on a cell holding neither a
    blank nor an enemy stays where it is, to the last enemy. *)
Lemma descend_run_blocked space i j k :
  sized space ->
  (forall m, 0 <= m < k -> cell space (i + m) j = ENEMY) ->
  cell space (i + k) j <> EMPTY -> cell space (i + k) j <> ENEMY ->
  forall m, 0 <= m <= k -> cell (final (descend space)) (i + m) j = cell space (i + m) j.
Proof.
  intros Hs Hrun Hb Hn.
  destruct (descend_final_inv
    (fun _ b => forall m, 0 <= m <= k -> cell b (i + m) j = cell space (i + m) j) space)
    as (_ & _ & H); auto.
  intros i0 b j0 _ _ Hkeep m Hm.
  assert (forall m0, 0 <= m0 <= k -> cell b (i + m0) j <> EMPTY) as Hfull.
  { intros m0 Hm0. rewrite Hkeep by assumption.
    destruct (decide (m0 = k)) as [->|Hne]; [assumption|].
    rewrite Hrun by lia. discriminate. }
  destruct (descend_cell_change b i0 j0 (i + m) j) as [->|(Hsrc & Hdst & [[Hc _]|[Hc _]])].
  - apply Hkeep. assumption.
  - exfalso. inversion Hc; subst.
    destruct (decide (m = k)) as [->|Hne].
    + apply Hn. rewrite <- Hkeep by lia. assumption.
    + apply (Hfull (m + 1)); [lia|]. replace (i + (m + 1)) with (i + m + 1) by lia.
      assumption.
  - exfalso. inversion Hc; subst. apply (Hfull m Hm). congruence.
Qed.


(** A vertical run of [k] enemies with a blank cell under it goes down
    one row as a whole in a descent that runs to its end: the rows are
    visited from the bottom up, and each enemy of the run finds the cell
    below it blank by the time it is visited.  The cell at the top of the
    run is taken by the enemy above it, if one stands there. *)
Lemma descend_run_moves space b' i j k :
  sized space -> 1 <= i -> 1 <= k -> i + k <= 28 -> 1 <= j <= 158 ->
  (forall m, 0 <= m < k -> cell space (i + m) j = ENEMY) ->
  cell space (i + k) j = EMPTY ->
  descend space = Descended b' ->
  (forall m, 1 <= m <= k -> cell b' (i + m) j = ENEMY) /\
  cell b' i j =
    (if (1 <=? i - 1) && Ascii.eqb (cell space (i - 1) j) ENEMY then ENEMY else EMPTY).
Proof.
  intros Hs Hi Hk Hik Hj Hrun Hb Hd.
  rewrite descend_sized_eq in Hd by assumption.
  set (top := if (1 <=? i - 1) && Ascii.eqb (cell space (i - 1) j) ENEMY
              then ENEMY else EMPTY).
  pose proof (descend_rows_ind
    (fun x b =>
       sized b /\
       (forall r, r <= x -> cell b r j = cell space r j) /\
       (i - 1 <= x < i + k -> cell b (x + 1) j = EMPTY) /\
       (forall r, x + 2 <= r -> i + 1 <= r <= i + k -> cell b r j = ENEMY) /\
       (x < i - 1 -> cell b i j = top))
    (seqZ 1 158) 28 space b') as H.
  destruct H as (_ & _ & Hhole & Hmoved & Htop); [| |exact Hd|].
  - intros x b b1 Hx (Hsb & Hlow & Hhole & Hmoved & Htop) Hrow.
    assert (forall r, r <> x -> r <> x + 1 -> cell b1 r j = cell b r j) as Hother
      by (intros r H1 H2; apply (descend_row_other (seqZ 1 158) x b b1); assumption).
    assert (cell b x j = ENEMY -> cell b (x + 1) j = EMPTY ->
            cell b1 x j = EMPTY /\ cell b1 (x + 1) j = ENEMY) as Hmove.
    { intros He Hbl. apply (descend_row_moves (seqZ 1 158) x j b b1); auto.
      - unfold inside, ROWS, COLS. lia.
      - unfold inside, ROWS, COLS. lia.
      - apply elem_of_seqZ. lia. }
    assert (~ (cell b x j = ENEMY /\ cell b (x + 1) j = EMPTY) ->
            cell b1 x j = cell b x j /\ cell b1 (x + 1) j = cell b (x + 1) j) as Hstay
      by (intros Hno; apply (descend_row_stays (seqZ 1 158) x j b b1); assumption).
    assert (cell b x j = cell space x j) as Hx0 by (apply Hlow; lia).
    split; [eapply descend_row_sized; eauto|].
    split; [|split; [|split]].
    + intros r Hr. rewrite Hother by lia. apply Hlow. lia.
    + intros Hrange. replace (x - 1 + 1) with x by lia.
      destruct (decide (x = i + k)) as [->|Hne].
      * destruct Hstay as [-> _]; [|congruence].
        intros [He _]. rewrite Hx0, Hb in He. discriminate.
      * apply Hmove; [|apply Hhole; lia].
        rewrite Hx0. replace x with (i + (x - i)) by lia. apply Hrun. lia.
    + intros r Hr Hrk. destruct (decide (r = x + 1)) as [->|Hne].
      * apply Hmove; [|apply Hhole; lia].
        rewrite Hx0. replace x with (i + (x - i)) by lia. apply Hrun. lia.
      * rewrite Hother by lia. apply Hmoved; lia.
    + intros Hlt. destruct (decide (x = i - 1)) as [->|Hne].
      * replace (i - 1 + 1) with i in * by lia.
        assert (cell b i j = EMPTY) as Hbi by (apply Hhole; lia).
        unfold top. replace (1 <=? i - 1) with true by (symmetry; apply Z.leb_le; lia).
        cbn [andb].
        destruct (Ascii.eqb_spec (cell space (i - 1) j) ENEMY) as [He|He].
        -- apply Hmove; [congruence|assumption].
        -- destruct Hstay as [_ ->]; [|assumption].
           intros [He' _]. apply He. congruence.
      * rewrite Hother by lia. apply Htop. lia.
  - split; [assumption|]. split; [reflexivity|].
    split; [intros; lia|]. split; intros; lia.
  - split.
    + intros m Hm. apply Hmoved; lia.
    + destruct (decide (i = 1)) as [->|Hne].
      * simpl. apply Hhole. lia.
      * apply Htop. lia.
Qed.

Lemma descend_cell_moved b i j :
  sized b -> inside i j -> inside (i + 1) j ->
  cell b i j = ENEMY -> cell b (i + 1) j = EMPTY ->
  cell (descend_cell b i j) i j = EMPTY /\ cell (descend_cell b i j) (i + 1) j = ENEMY.
Proof.
  intros Hs Hij Hij' He Hb.
  destruct (descend_cell_cases b i j) as [[_ Hno]|(_ & _ & ->)]; [tauto|].
  split.
  - rewrite cell_put_other by (intros Hc; inversion Hc; lia).
    apply cell_put_same; assumption.
  - apply cell_put_same; auto using put_sized.
Qed.

(** Over a whole descent a cell changes in two ways only: it hands its
    enemy to the cell below, or it takes the enemy of the cell above. *)
Lemma descend_change space r k :
  sized space ->
  cell (final (descend space)) r k = cell space r k \/
  (cell space r k = ENEMY /\ cell (final (descend space)) r k = EMPTY /\
   cell (final (descend space)) (r + 1) k = ENEMY) \/
  (cell space r k = EMPTY /\ cell (final (descend space)) r k = ENEMY /\
   cell space (r - 1) k = ENEMY).
Proof.
  intros Hs.
  destruct (descend_final_inv
    (fun i b =>
       sized b /\
       (forall r k, r < i -> cell b r k = cell space r k) /\
       (forall r k, r <= i -> cell b r k = ENEMY -> cell space r k = ENEMY) /\
       (forall r k,
          cell b r k = cell space r k \/
          (cell space r k = ENEMY /\ cell b r k = EMPTY /\ cell b (r + 1) k = ENEMY) \/
          (cell space r k = EMPTY /\ cell b r k = ENEMY /\ cell space (r - 1) k = ENEMY)))
    space) as (i & _ & _ & _ & _ & H); auto.
  - intros i b j Hi Hj (Hsb & Hup & Hlow & Hall).
    split; [apply descend_cell_sized; assumption|].
    destruct (descend_cell_cases b i j) as [[-> _]|(He & Hb & _)]; [auto|].
    assert (forall r0 k0, (r0, k0) <> (i, j) -> (r0, k0) <> (i + 1, j) ->
              cell (descend_cell b i j) r0 k0 = cell b r0 k0) as Hother
      by (intros; apply descend_cell_other; assumption).
    destruct (descend_cell_moved b i j) as [Hsrc Hdst]; auto;
      try (unfold inside, ROWS, COLS; lia).
    split; [|split].
    + intros r0 k0 Hr0. rewrite Hother by (intros Hc; inversion Hc; lia).
      apply Hup. assumption.
    + intros r0 k0 Hr0 He0. destruct (decide ((r0, k0) = (i, j))) as [Hc|Hc].
      * inversion Hc; subst. rewrite Hsrc in He0. discriminate.
      * rewrite Hother in He0 by (auto; intros Hx; inversion Hx; lia).
        apply Hlow; assumption.
    + intros r0 k0. destruct (decide ((r0, k0) = (i, j))) as [Hc|Hc].
      { inversion Hc; subst. right. left. split; [apply Hlow; [lia|assumption]|]. auto. }
      destruct (decide ((r0, k0) = (i + 1, j))) as [Hc'|Hc'].
      { inversion Hc'; subst.
        destruct (Hall (i + 1) j) as [H1|[(H1 & _)|(_ & H1 & _)]].
        - right. right. split; [congruence|]. split; [assumption|].
          replace (i + 1 - 1) with i by lia. apply Hlow; [lia|assumption].
        - left. congruence.
        - rewrite Hb in H1. discriminate. }
      rewrite Hother by assumption.
      destruct (Hall r0 k0) as [H1|[(H1 & H2 & H3)|H1]]; [auto| |auto].
      right. left. split; [assumption|]. split; [assumption|].
      destruct (decide ((r0 + 1, k0) = (i, j))) as [Hd|Hd].
      { exfalso. inversion Hd; subst.
        rewrite (Hup r0 j ltac:(lia)) in H2. rewrite H1 in H2. discriminate. }
      rewrite Hother; [assumption|assumption|].
      intros Hx. inversion Hx; subst. apply Hc. f_equal. lia.
  - intros i b Hi (Hsb & Hup & Hlow & Hall). split; [assumption|]. split; [|split].
    + intros. apply Hup. lia.
    + intros. apply Hlow; [lia|assumption].
    + assumption.
Qed.

End StackFacts.

(** ** More concrete runs *)

Section MoreExamples.

Lemma descended_final d : landed d = false -> d = Descended (final d).
Proof. destruct d; [reflexivity|discriminate]. Qed.

Lemma returned_Ret {A} (r : result A) :
  returned r = true -> exists a w, r = Ret a w.
Proof. destruct r as [a w|status w]; [eauto|discriminate]. Qed.

Lemma exited_with_Exit {A} status (r : result A) :
  exited_with status r = true -> r = Exit status (world_of r).
Proof.
  destruct r as [a w|status' w]; [discriminate|]. simpl.
  intros H. apply Z.eqb_eq in H. subst. reflexivity.
Qed.

Lemma beside_game_reachable : reachable (game_after beside_inputs).
Proof.
  apply game_after_reachable; vm_compute; reflexivity.
Qed.

Lemma hard_left_reachable : reachable (game_after hard_left).
Proof.
  apply game_after_reachable; vm_compute; reflexivity.
Qed.

Lemma stacked_game_reachable : reachable (game_after stacked_inputs).
Proof.
  apply game_after_reachable; vm_compute; reflexivity.
Qed.

Lemma stacked_board_sized : sized stacked_board.
Proof.
  apply before_descent_sized. apply reachable_tidy. exact stacked_game_reachable.
Qed.

End MoreExamples.

(** * The properties of the design document *)

(** C1, as the code has it: at the top of every iteration the loop of
    [main] reaches, every cell of the border ring (row 0, row 29, column
    0, column 159) is blank, so none holds a shooter, an enemy or a
    bullet, and the shooter's column and the positions of the bullets are
    strictly inside the ring.  The one write into the ring is the enemy
    [update_board] moves from row 28 into row 29; the exit branch is
    taken on that board, on which every border cell that is not blank is
    a cell of row 29, columns 1 to 158, holding an enemy. *)
Theorem border_ring_blank_while_running g :
  reachable g ->
  (forall i j, on_border i j -> cell (space g) i j = EMPTY) /\
  1 <= shooter_position g <= COLS - 2 /\
  (forall b, b ∈ bullets g -> 1 <= fst b <= ROWS - 2 /\ 1 <= snd b <= COLS - 2) /\
  (forall inp b i j,
     valid_input inp ->
     descend (before_descent inp g) = Landed b ->
     on_border i j -> cell b i j <> EMPTY ->
     i = ROWS - 1 /\ 1 <= j <= COLS - 2 /\ cell b i j = ENEMY).
Proof.
  intros Hr. pose proof (reachable_tidy g Hr) as Hg.
  pose proof Hg as (Hs & Hb & Hp & Hfl & _).
  split; [exact Hb|]. split; [exact Hp|]. split.
  { intros b Hin. rewrite Forall_forall in Hfl. apply Hfl in Hin.
    unfold in_flight, ROWS in *. lia. }
  intros inp b i j Hv Hd Hij Hne.
  pose proof (descend_landed_border (before_descent inp g) i j
                (before_descent_sized inp g Hs)
                (before_descent_border_clear inp g Hg Hv) Hij) as H.
  rewrite Hd in H. simpl in H.
  destruct H as [?|(-> & ? & ?)]; [contradiction|].
  unfold ROWS, COLS. repeat split; auto; lia.
Qed.

Lemma border_ring_blank_while_running_witness :
  cell (space (game_after landing_inputs)) 29 1 = EMPTY.
Proof.
  apply (proj1 (border_ring_blank_while_running (game_after landing_inputs)
                  landing_game_reachable)).
  unfold on_border, ROWS. right. left. reflexivity.
Defined.

(** C1 as stated fails: in the state the loop is in after
    [landing_inputs], the next descent leaves an enemy in cell (29, 1) of
    the border ring, on the board [update_board] exits with. *)
Lemma border_ring_written_at_loss :
  exists g inp b,
    reachable g /\ valid_input inp /\ key inp <> "q"%char /\
    descent_due inp g = true /\
    descend (before_descent inp g) = Landed b /\
    on_border 29 1 /\ cell b 29 1 = ENEMY.
Proof.
  assert ((let g := game_after landing_inputs in
           let d := descend (before_descent (Input (ms 15500) NUL 1) g) in
           descent_due (Input (ms 15500) NUL 1) g && landed d
           && Ascii.eqb (cell (final d) 29 1) ENEMY) = true) as Hrun
    by (vm_compute; reflexivity).
  cbv zeta in Hrun.
  apply andb_true_iff in Hrun as [Hrun Hcell].
  apply andb_true_iff in Hrun as [Hdue Hland].
  exists (game_after landing_inputs), (Input (ms 15500) NUL 1).
  eexists. split; [exact landing_game_reachable|].
  split; [unfold valid_input; simpl; lia|].
  split; [discriminate|].
  split; [exact Hdue|].
  split; [exact (landed_final _ Hland)|].
  split; [unfold on_border, ROWS; right; left; reflexivity|].
  apply Ascii.eqb_eq in Hcell. exact Hcell.
Qed.

(** C2: on a board of the size of [main] whose border ring is blank (as
    it is in every state the loop reaches), an enemy in row 28, the last
    row inside the border, in any of the columns 1 to 158, makes
    [update_board] take its exit branch: the terminal is restored, "You
    lost" is printed and the process exits with status 0. *)
Theorem update_board_loses space j w :
  sized space -> border_clear space ->
  1 <= j <= COLS - 2 ->
  cell space (ROWS - 2) j = ENEMY ->
  update_board space w =
  Exit 0 (printed [CLEAR; String.append "You lost" NL] (restored w)).
Proof.
  intros Hs Hb Hj He.
  destruct (update_board_cases space w) as [(b & Hd & _)|(b & _ & Hu)]; [|exact Hu].
  exfalso.
  destruct (descend_lands space j Hs) as [b' Hl].
  - unfold COLS in Hj. lia.
  - right. split; [exact He|]. apply Hb. unfold on_border, ROWS. auto.
  - congruence.
Qed.

Lemma update_board_loses_witness :
  update_board (put (fresh_board ROWS COLS) 28 5 ENEMY) cooked_world =
  Exit 0 (printed [CLEAR; String.append "You lost" NL] (restored cooked_world)).
Proof.
  apply (update_board_loses (put (fresh_board ROWS COLS) 28 5 ENEMY) 5 cooked_world).
  - apply put_sized, fresh_board_sized.
  - apply put_border_clear; [|apply fresh_board_border_clear].
    unfold on_border, ROWS, COLS. lia.
  - unfold COLS. lia.
  - vm_compute. reflexivity.
Defined.




(** C4: in every state the loop reaches, whatever the keys read so far,
    the shooter's column is within [1, cols-2]; an iteration that reads
    ['a'] decrements it only if it is above 1, one that reads ['d']
    increments it only if it is below cols-2, and any other key (but
    ['q'], which ends the program) leaves it unchanged. *)
Theorem shooter_column_clamped g :
  reachable g ->
  1 <= shooter_position g <= COLS - 2 /\
  forall inp w g' w',
    tick inp g w = Ret g' w' ->
    (key inp = "a"%char ->
     shooter_position g' =
     if 1 <? shooter_position g then shooter_position g - 1 else shooter_position g) /\
    (key inp = "d"%char ->
     shooter_position g' =
     if shooter_position g <? COLS - 2 then shooter_position g + 1
     else shooter_position g) /\
    (key inp <> "a"%char -> key inp <> "d"%char ->
     shooter_position g' = shooter_position g).
Proof.
  intros Hr. pose proof (reachable_tidy g Hr) as (_ & _ & Hp & _).
  split; [exact Hp|].
  intros inp w g' w' Ht.
  destruct (tick_cases inp g w) as [[_ He]|[(_ & _ & _ & He)|(_ & space3 & _ & He)]];
    rewrite He in Ht; try discriminate.
  inversion Ht; subst. unfold next_game, steered. simpl.
  repeat split.
  - intros ->. reflexivity.
  - intros ->. reflexivity.
  - intros Ha Hd.
    destruct (Ascii.eqb_spec (key inp) "a"); [contradiction|].
    destruct (Ascii.eqb_spec (key inp) "d"); [contradiction|]. reflexivity.
Qed.

Lemma shooter_column_clamped_witness :
  1 <= shooter_position (game_after hard_left) <= COLS - 2 /\
  shooter_position (game_after hard_left) = 1 /\
  (exists g' w',
     tick (Input (ms 700) "a" 1) (game_after hard_left) cooked_world = Ret g' w' /\
     shooter_position g' = 1) /\
  (exists g' w',
     tick (Input (ms 700) "d" 1) (game_after hard_left) cooked_world = Ret g' w' /\
     shooter_position g' = 2) /\
  (exists g' w',
     tick (Input (ms 700) NUL 1) (game_after hard_left) cooked_world = Ret g' w' /\
     shooter_position g' = 1).
Proof.
  destruct (shooter_column_clamped (game_after hard_left) hard_left_reachable)
    as [Hrange Hkeys].
  assert ((let g := game_after hard_left in
           (shooter_position g =? 1)
           && returned (tick (Input (ms 700) "a" 1) g cooked_world)
           && returned (tick (Input (ms 700) "d" 1) g cooked_world)
           && returned (tick (Input (ms 700) NUL 1) g cooked_world)) = true) as Hrun
    by (vm_compute; reflexivity).
  cbv zeta in Hrun.
  apply andb_true_iff in Hrun as [Hrun Hn].
  apply andb_true_iff in Hrun as [Hrun Hd].
  apply andb_true_iff in Hrun as [Hpos Ha].
  apply Z.eqb_eq in Hpos.
  apply returned_Ret in Ha as (ga & wa & Ha).
  apply returned_Ret in Hd as (gd & wd & Hd).
  apply returned_Ret in Hn as (gn & wn & Hn).
  split; [exact Hrange|]. split; [exact Hpos|]. split; [|split].
  - exists ga, wa. split; [exact Ha|].
    destruct (Hkeys _ _ _ _ Ha) as (Hleft & _ & _).
    rewrite (Hleft eq_refl), Hpos. reflexivity.
  - exists gd, wd. split; [exact Hd|].
    destruct (Hkeys _ _ _ _ Hd) as (_ & Hright & _).
    rewrite (Hright eq_refl), Hpos. reflexivity.
  - exists gn, wn. split; [exact Hn|].
    destruct (Hkeys _ _ _ _ Hn) as (_ & _ & Hother).
    rewrite Hother, Hpos; [reflexivity|discriminate|discriminate].
Defined.

(** C5, as the code has it: the rows are visited from the bottom up and
    the test of the cell below is made when the enemy is visited, so what
    blocks an enemy is a bullet mark or the shooter, not another enemy.
    On a board of the size of [main]:
    - an enemy standing on a cell that holds neither a blank nor an enemy
      is in its cell after the descent, and so is every enemy of a
      vertical run of enemies standing on such a cell;
    - a descent runs to its end when rows 28 and 29 hold no enemy, and in
      a descent that runs to its end a vertical run of enemies over a
      blank cell goes down one row as a whole, each enemy following the
      one below it; the cell at the top of the run is blank afterwards,
      unless the enemy right above the run has followed into it;
    - a cell changes in two ways only: it hands its enemy to the cell
      below and is blank, or it was blank and holds the enemy of the cell
      above; so every enemy of the resulting board stood in the same cell
      or in the one directly above, none moved more than one row;
    - the number of enemy cells is unchanged: no enemy was moved onto
      another. *)
Theorem descent_moves_each_enemy_once space :
  sized space ->
  (forall i j k,
     (forall m, 0 <= m < k -> cell space (i + m) j = ENEMY) ->
     cell space (i + k) j <> EMPTY -> cell space (i + k) j <> ENEMY ->
     forall m, 0 <= m <= k ->
       cell (final (descend space)) (i + m) j = cell space (i + m) j) /\
  ((forall j, cell space (ROWS - 2) j <> ENEMY) ->
   (forall j, cell space (ROWS - 1) j <> ENEMY) ->
   exists b', descend space = Descended b') /\
  (forall b' i j k,
     descend space = Descended b' ->
     1 <= i -> 1 <= k -> i + k <= ROWS - 2 -> 1 <= j <= COLS - 2 ->
     (forall m, 0 <= m < k -> cell space (i + m) j = ENEMY) ->
     cell space (i + k) j = EMPTY ->
     (forall m, 1 <= m <= k -> cell b' (i + m) j = ENEMY) /\
     cell b' i j =
       (if (1 <=? i - 1) && Ascii.eqb (cell space (i - 1) j) ENEMY
        then ENEMY else EMPTY)) /\
  (forall r k,
     cell (final (descend space)) r k = cell space r k \/
     (cell space r k = ENEMY /\ cell (final (descend space)) r k = EMPTY /\
      cell (final (descend space)) (r + 1) k = ENEMY) \/
     (cell space r k = EMPTY /\ cell (final (descend space)) r k = ENEMY /\
      cell space (r - 1) k = ENEMY)) /\
  (forall r k,
     cell (final (descend space)) r k = ENEMY ->
     cell space r k = ENEMY \/ cell space (r - 1) k = ENEMY) /\
  enemy_count (final (descend space)) = enemy_count space.
Proof.
  intros Hs. split; [|split; [|split; [|split; [|split]]]].
  - intros i j k. apply descend_run_blocked. assumption.
  - apply descend_continues. assumption.
  - intros b' i j k Hd Hi Hk Hik Hj Hrun Hb. unfold ROWS, COLS in *.
    apply (descend_run_moves space b' i j k); auto; lia.
  - intros r k. apply descend_change. assumption.
  - intros r k. apply descend_provenance. assumption.
  - apply descend_count. assumption.
Qed.

Lemma descent_moves_each_enemy_once_witness :
  cell stacked_board 2 80 = ENEMY /\
  cell stacked_board (2 + 1) 80 = ENEMY /\
  cell (final (descend stacked_board)) (2 + 1) 80 = ENEMY /\
  cell (final (descend stacked_board)) (2 + 2) 80 = ENEMY /\
  cell (final (descend stacked_board)) 2 80 = EMPTY.
Proof.
  assert ((Ascii.eqb (cell stacked_board 2 80) ENEMY
           && Ascii.eqb (cell stacked_board 3 80) ENEMY
           && Ascii.eqb (cell stacked_board 4 80) EMPTY
           && Ascii.eqb (cell stacked_board 1 80) EMPTY
           && negb (landed (descend stacked_board))) = true) as Hrun
    by (vm_compute; reflexivity).
  apply andb_true_iff in Hrun as [Hrun Hend].
  apply andb_true_iff in Hrun as [Hrun H1].
  apply andb_true_iff in Hrun as [Hrun H4].
  apply andb_true_iff in Hrun as [H2 H3].
  apply Ascii.eqb_eq in H1, H2, H3, H4.
  apply negb_true_iff, descended_final in Hend.
  destruct (descent_moves_each_enemy_once stacked_board stacked_board_sized)
    as (_ & _ & Hmove & _).
  destruct (Hmove (final (descend stacked_board)) 2 80 2 Hend) as [Hdown Htop].
  - lia.
  - lia.
  - unfold ROWS. lia.
  - unfold COLS. lia.
  - intros m Hm. assert (m = 0 \/ m = 1) as [-> | ->] by lia; [exact H2|exact H3].
  - exact H4.
  - split; [exact H2|]. split; [exact H3|].
    split; [apply Hdown; lia|]. split; [apply Hdown; lia|].
    rewrite Htop. change (2 - 1) with 1. rewrite H1. reflexivity.
Defined.

(** C5 as stated fails for an enemy above another enemy.  Two iterations
    2 s apart with the generator returning column 80 leave enemies in
    (2, 80) and (3, 80); in the next descent the enemy in (2, 80), whose
    cell directly below is not blank, moves all the same: it follows the
    lower one, and afterwards the two stand in (3, 80) and (4, 80). *)
Lemma enemy_above_enemy_moves :
  exists g inp b',
    reachable g /\ valid_input inp /\ descent_due inp g = true /\
    descend (before_descent inp g) = Descended b' /\
    cell (before_descent inp g) 2 80 = ENEMY /\
    cell (before_descent inp g) (2 + 1) 80 <> EMPTY /\
    cell b' 2 80 = EMPTY /\
    cell b' (2 + 1) 80 = ENEMY /\
    cell b' (2 + 2) 80 = ENEMY /\
    enemy_count b' = enemy_count (before_descent inp g).
Proof.
  assert ((let g := game_after stacked_inputs in
           let inp := Input (ms 4500) NUL 80 in
           let d := descend (before_descent inp g) in
           descent_due inp g && negb (landed d)
           && Ascii.eqb (cell (before_descent inp g) 2 80) ENEMY
           && Ascii.eqb (cell (before_descent inp g) 3 80) ENEMY
           && Ascii.eqb (cell (final d) 2 80) EMPTY
           && Ascii.eqb (cell (final d) 3 80) ENEMY
           && Ascii.eqb (cell (final d) 4 80) ENEMY
           && Nat.eqb (enemy_count (final d)) (enemy_count (before_descent inp g)))
          = true) as Hrun
    by (vm_compute; reflexivity).
  cbv zeta in Hrun.
  apply andb_true_iff in Hrun as [Hrun Hcount].
  apply andb_true_iff in Hrun as [Hrun H4'].
  apply andb_true_iff in Hrun as [Hrun H3'].
  apply andb_true_iff in Hrun as [Hrun H2'].
  apply andb_true_iff in Hrun as [Hrun H3].
  apply andb_true_iff in Hrun as [Hrun H2].
  apply andb_true_iff in Hrun as [Hdue Hend].
  apply Ascii.eqb_eq in H2, H3, H2', H3', H4'.
  apply Nat.eqb_eq in Hcount.
  apply negb_true_iff, descended_final in Hend.
  exists (game_after stacked_inputs), (Input (ms 4500) NUL 80).
  eexists. split; [exact stacked_game_reachable|].
  split; [unfold valid_input; simpl; lia|].
  split; [exact Hdue|].
  split; [exact Hend|].
  split; [exact H2|].
  split; [change (2 + 1) with 3; rewrite H3; discriminate|].
  split; [exact H2'|].
  split; [exact H3'|].
  split; [exact H4'|].
  exact Hcount.
Qed.

(** C6, as the code has it: the firing gate comes before the [switch] on
    the key, so in an iteration whose firing interval has elapsed the
    bullet is enqueued at row 27 in the column the shooter has before
    that iteration's movement.  When the iteration returns the shooter is
    in the column the key asks for, every bullet is an older one moved up
    or the new one at (26, old column), and the new one is there with its
    mark unless an enemy in that cell destroyed it. *)
Theorem bullet_fired_before_move g inp :
  reachable g -> valid_input inp -> fire_due inp g = true ->
  fst (fire (now inp) g) = bullets g ++ [(27, shooter_position g)] /\
  forall w g' w',
    tick inp g w = Ret g' w' ->
    shooter_position g' = steered (key inp) (shooter_position g) /\
    (forall b, b ∈ bullets g' ->
               b = (26, shooter_position g) \/ exists b0, b0 ∈ bullets g /\ b = risen b0) /\
    (((26, shooter_position g) ∈ bullets g' /\
      cell (space g') 26 (shooter_position g) = BULLET) \/
     (((26, shooter_position g) ∉ bullets g') /\
      cell (space g') 26 (shooter_position g) = EMPTY)).
Proof.
  intros Hr Hv Hdue. pose proof (reachable_tidy g Hr) as Hg.
  assert (fst (fire (now inp) g) = bullets g ++ [(27, shooter_position g)]) as Hfire.
  { unfold fire. unfold fire_due in Hdue. rewrite Hdue. reflexivity. }
  split; [exact Hfire|].
  intros w g' w' Ht.
  destruct (tick_cases inp g w) as [[_ He]|[(_ & _ & _ & He)|(_ & space3 & Hgate & He)]];
    rewrite He in Ht; try discriminate.
  inversion Ht; subst. clear Ht He.
  destruct (descent_gate_tidy inp g space3 Hg Hv Hgate) as [Hs3 _].
  pose proof (rising_NoDup _ (fire_rising (now inp) g Hg)) as Hnd.
  pose proof Hg as (_ & _ & Hp & _).
  unfold next_game. simpl. rewrite Hfire in *.
  assert ((27, shooter_position g) ∈ bullets g ++ [(27, shooter_position g)]) as Hin
    by (apply elem_of_app; right; constructor).
  split; [reflexivity|]. split.
  - intros b Hb. rewrite bullet_step_eq in Hb. simpl in Hb.
    apply advance_bullets_elem in Hb as (b0 & Hb0 & -> & _).
    apply elem_of_app in Hb0 as [Hold|Hnew].
    + right. exists b0. split; [assumption|reflexivity].
    + left. apply list_elem_of_singleton in Hnew. subst. reflexivity.
  - destruct (cell_eq_dec_cases (cell space3 26 (shooter_position g)) ENEMY) as [He|He].
    + right. apply (bullet_step_kill _ space3 (27, shooter_position g)); auto.
      simpl. lia.
    + left. destruct (bullet_step_move _ space3 (27, shooter_position g) Hin) as [Hm Hc];
        [simpl; lia|exact He|].
      split; [exact Hm|]. apply Hc; [assumption|].
      unfold inside, ROWS, COLS in *. simpl. lia.
Qed.

Lemma bullet_fired_before_move_witness :
  fst (fire (ms 100) (game_start 0 0 0)) =
  bullets (game_start 0 0 0) ++ [(27, shooter_position (game_start 0 0 0))].
Proof.
  apply (bullet_fired_before_move (game_start 0 0 0) (Input (ms 100) "a" 1)).
  - apply reach_start.
  - unfold valid_input. simpl. lia.
  - vm_compute. reflexivity.
Defined.

(** C6 as stated fails: with ['a'] pending when the first firing
    interval elapses, the iteration ends with the shooter in column 69
    and its one bullet in column 70. *)
Lemma bullet_not_in_column_after_move :
  exists g inp,
    reachable g /\ valid_input inp /\ fire_due inp g = true /\ key inp = "a"%char /\
    match tick inp g cooked_world with
    | Ret g' _ => exists b, bullets g' = [b] /\ snd b <> shooter_position g'
    | Exit _ _ => False
    end.
Proof.
  exists (game_start 0 0 0), (Input (ms 100) "a" 1).
  split; [apply reach_start|].
  split; [unfold valid_input; simpl; lia|].
  split; [vm_compute; reflexivity|].
  split; [reflexivity|].
  vm_compute. exists (26, 70). split; [reflexivity|discriminate].
Qed.

(** C7, as the code has it: from a state with the shooter in column 70,
    no bullets and no enemies on the board, in the iteration in which the
    firing interval elapses the firing gate leaves exactly one bullet, at
    (27, 70); the bullet loops of the same iteration move it, so when the
    iteration returns exactly one bullet exists, at (26, 70), and that
    cell holds its mark. *)
Theorem first_bullet g inp w :
  sized (space g) ->
  (forall i j, cell (space g) i j <> ENEMY) ->
  shooter_position g = 70 -> bullets g = [] ->
  valid_input inp -> key inp <> "q"%char -> fire_due inp g = true ->
  fst (fire (now inp) g) = [(28 - 1, 70)] /\
  exists g' w',
    tick inp g w = Ret g' w' /\
    bullets g' = [(28 - 2, 70)] /\
    cell (space g') (28 - 2) 70 = BULLET.
Proof.
  intros Hs Hfree Hp Hbs Hv Hq Hdue.
  assert (fst (fire (now inp) g) = [(27, 70)]) as Hfire.
  { unfold fire. unfold fire_due in Hdue. rewrite Hdue, Hbs, Hp. reflexivity. }
  split; [exact Hfire|].
  pose proof (before_descent_sized inp g Hs) as Hs2.
  destruct (tick_cases inp g w) as [[? _]|[(_ & _ & [b Hl] & _)|(_ & space3 & Hgate & He)]].
  - contradiction.
  - exfalso.
    destruct (descend_landed_from (before_descent inp g) b Hs2) as (j & _ & He & _).
    + intros j He. apply before_descent_enemy in He; [lia|assumption].
    + assumption.
    + apply before_descent_enemy in He; [lia|assumption].
  - exists (next_game inp g space3). eexists. split; [exact He|].
    assert (sized space3 /\ cell space3 26 70 <> ENEMY) as [Hs3 Hc3].
    { destruct (descent_due inp g).
      - split.
        + pose proof (descend_final_sized _ Hs2) as H. rewrite Hgate in H. exact H.
        + intros Hc.
          pose proof (descend_provenance (before_descent inp g) 26 70 Hs2) as H.
          rewrite Hgate in H. simpl in H.
          destruct (H Hc) as [H0|H0]; apply before_descent_enemy in H0; auto; lia.
      - subst. split; [assumption|].
        intros Hc. apply before_descent_enemy in Hc; [lia|assumption]. }
    unfold next_game. simpl. rewrite Hfire.
    assert ((27, 70) ∈ [(27, 70)]) as Hin by constructor.
    destruct (bullet_step_move [(27, 70)] space3 (27, 70) Hin) as [_ Hmark];
      [simpl; lia|exact Hc3|].
    split; [|apply Hmark; [assumption|unfold inside, ROWS, COLS; simpl; lia]].
    rewrite bullet_step_eq. cbn [snd]. rewrite advance_bullets_cons. cbn [fst snd].
    change (27 - 1) with 26. change (1 <=? 26) with true. cbv iota.
    destruct (Ascii.eqb_spec (cell (erase_bullets [(27, 70)] space3) 26 70) ENEMY) as [Hc|Hc];
      [|reflexivity].
    exfalso. destruct (erase_bullets_cell [(27, 70)] space3 26 70) as [Heq|(_ & Heq & _)];
      rewrite Heq in Hc; [contradiction|discriminate].
Qed.

Lemma first_bullet_witness :
  exists g' w',
    tick (Input (ms 100) NUL 1) (game_start 0 0 0) cooked_world = Ret g' w' /\
    bullets g' = [(28 - 2, 70)] /\
    cell (space g') (28 - 2) 70 = BULLET.
Proof.
  apply (first_bullet (game_start 0 0 0) (Input (ms 100) NUL 1) cooked_world).
  - apply fresh_board_sized.
  - intros i j. simpl. rewrite fresh_board_cell. discriminate.
  - reflexivity.
  - reflexivity.
  - unfold valid_input. simpl. lia.
  - discriminate.
  - vm_compute. reflexivity.
Defined.

(** C7 as stated fails: from the start state, after the iteration in
    which the first firing interval elapses, the one bullet is not at
    (shooter_row - 1, 70) = (27, 70). *)
Lemma first_bullet_not_in_row_27 :
  fire_due (Input (ms 100) NUL 1) (game_start 0 0 0) = true /\
  match tick (Input (ms 100) NUL 1) (game_start 0 0 0) cooked_world with
  | Ret g' _ => bullets g' <> [(28 - 1, 70)]
  | Exit _ _ => False
  end.
Proof.
  split; [vm_compute; reflexivity|].
  vm_compute. discriminate.
Qed.

(** C8, as the code has it: however the program ends, by the ['q'] key
    or by an enemy reaching the bottom, the iterations before the last one
    ran with the terminal in raw mode and standard input non-blocking,
    and the last one exits with status 0 after putting the terminal
    attributes back to what they were before [main] changed them and
    clearing O_NONBLOCK on standard input, no other flag touched.  The
    file flags are the ones found at start-up exactly when standard input
    was blocking then.  The last text on [cout] is "Quit." for the key
    and "You lost" otherwise, each followed by a newline, and whatever
    input follows the iteration that ended the program is never read. *)
Theorem exits_restore_terminal t0 t1 t2 inputs w status w' :
  main t0 t1 t2 inputs w = Exit status w' ->
  status = 0 /\
  tty w' = tty w /\
  fd_flags w' = Z.land (fd_flags w) (Z.lnot O_NONBLOCK) /\
  Z.land (fd_flags w') O_NONBLOCK = 0 /\
  (fd_flags w' = fd_flags w <-> Z.land (fd_flags w) O_NONBLOCK = 0) /\
  exists pre inp post g1 w1,
    inputs = pre ++ inp :: post /\
    main t0 t1 t2 pre w = Ret g1 w1 /\
    tty w1 = raw_of (tty w) /\
    Z.land (fd_flags w1) O_NONBLOCK = O_NONBLOCK /\
    tick inp g1 w1 = Exit status w' /\
    cout w' = cout w1 ++ (if Ascii.eqb (key inp) "q" then [String.append "Quit." NL]
                          else [CLEAR; String.append "You lost" NL]) /\
    last (cout w') =
      Some (if Ascii.eqb (key inp) "q" then String.append "Quit." NL
            else String.append "You lost" NL) /\
    forall more, main t0 t1 t2 (pre ++ inp :: more) w = Exit status w'.
Proof.
  rewrite main_eq. intros Hl.
  destruct (loop_Exit _ _ _ _ _ Hl) as (pre & inp & post & g1 & w1 & -> & Hpre & Ht).
  pose proof (loop_Ret_world _ _ _ _ _ Hpre) as (Htty & Hfl & Hold). simpl in Htty, Hfl, Hold.
  destruct (tick_Exit _ _ _ _ _ Ht) as [-> Hw].
  assert (tty w' = tty w /\ fd_flags w' = Z.land (fd_flags w) (Z.lnot O_NONBLOCK) /\
          cout w' = cout w1 ++ (if Ascii.eqb (key inp) "q" then [String.append "Quit." NL]
                                else [CLEAR; String.append "You lost" NL]) /\
          last (cout w') =
            Some (if Ascii.eqb (key inp) "q" then String.append "Quit." NL
                  else String.append "You lost" NL)) as (H1 & H2 & H3 & H4).
  { destruct Hw as [[Hq ->]|(Hq & _ & _ & ->)]; unfold printed, restored; simpl;
      rewrite Hold, Hfl, land_lor_lnot.
    - rewrite Hq. simpl. rewrite last_snoc. auto.
    - destruct (Ascii.eqb_spec (key inp) "q"); [contradiction|].
      rewrite last_two. auto. }
  split; [reflexivity|]. split; [exact H1|]. split; [exact H2|].
  split; [rewrite H2; apply land_lnot_off|].
  split; [rewrite H2; apply land_lnot_fixed|].
  exists pre, inp, post, g1, w1. split; [reflexivity|].
  split; [rewrite main_eq; exact Hpre|].
  split; [rewrite Htty; reflexivity|].
  split; [rewrite Hfl; apply land_lor_same|].
  split; [exact Ht|]. split; [exact H3|]. split; [exact H4|].
  intros more. rewrite main_eq, loop_app, Hpre. simpl. rewrite mbind_eq, Ht. reflexivity.
Qed.

Lemma exits_restore_terminal_witness :
  exists w',
    main 0 0 0 [Input (ms 100) NUL 1; Input (ms 200) "q" 1; Input (ms 300) "a" 1]
      cooked_world = Exit 0 w' /\
    tty w' = tty cooked_world /\
    fd_flags w' = fd_flags cooked_world.
Proof.
  assert (exited_with 0
            (main 0 0 0 [Input (ms 100) NUL 1; Input (ms 200) "q" 1; Input (ms 300) "a" 1]
               cooked_world) = true) as Hrun by (vm_compute; reflexivity).
  apply exited_with_Exit in Hrun.
  destruct (exits_restore_terminal _ _ _ _ _ _ _ Hrun) as (_ & Htty & _ & _ & Hfl & _).
  eexists. split; [exact Hrun|]. split; [exact Htty|].
  apply Hfl. reflexivity.
Defined.

(** C8 as stated fails for the input mode: the exits do not put back the
    file flags the program found, they clear O_NONBLOCK.  Started with
    standard input already non-blocking, the program leaves it blocking,
    on the ['q'] key as well as on a loss. *)
Lemma input_mode_not_restored :
  Z.land (fd_flags nonblocking_world) O_NONBLOCK = O_NONBLOCK /\
  (exists w',
     main 0 0 0 [Input (ms 100) "q" 1] nonblocking_world = Exit 0 w' /\
     fd_flags w' <> fd_flags nonblocking_world /\
     Z.land (fd_flags w') O_NONBLOCK = 0) /\
  (exists w',
     main 0 0 0 (landing_inputs ++ [Input (ms 15500) NUL 1]) nonblocking_world = Exit 0 w' /\
     fd_flags w' <> fd_flags nonblocking_world /\
     Z.land (fd_flags w') O_NONBLOCK = 0).
Proof.
  assert (forall inputs,
            (exited_with 0 (main 0 0 0 inputs nonblocking_world)
             && (fd_flags (world_of (main 0 0 0 inputs nonblocking_world)) =? 2)) = true ->
            exists w',
              main 0 0 0 inputs nonblocking_world = Exit 0 w' /\
              fd_flags w' <> fd_flags nonblocking_world /\
              Z.land (fd_flags w') O_NONBLOCK = 0) as Hgen.
  { intros inputs Hrun. apply andb_true_iff in Hrun as [Hexit Hflags].
    apply exited_with_Exit in Hexit. apply Z.eqb_eq in Hflags.
    eexists. split; [exact Hexit|]. rewrite Hflags.
    split; [discriminate|reflexivity]. }
  split; [reflexivity|].
  split; apply Hgen; vm_compute; reflexivity.
Qed.

(** C9: an iteration that returns leaves the shooter glyph in the
    shooter's cell, whatever that cell held before, an enemy included:
    the column is the one the key asks for (the move is not blocked), the
    cell reads ['A'] from the moment it is written to the end of the
    iteration, and if the descent of that iteration ends the game it is
    for an enemy in another column of row 28. *)
Theorem shooter_cell_holds_shooter g inp :
  reachable g -> valid_input inp ->
  (forall w g' w',
     tick inp g w = Ret g' w' ->
     shooter_position g' = steered (key inp) (shooter_position g) /\
     cell (space g') 28 (shooter_position g') = SHOOTER) /\
  cell (before_descent inp g) 28 (steered (key inp) (shooter_position g)) = SHOOTER /\
  (forall b,
     descend (before_descent inp g) = Landed b ->
     exists j, 1 <= j <= COLS - 2 /\ j <> steered (key inp) (shooter_position g) /\
               cell (before_descent inp g) 28 j = ENEMY).
Proof.
  intros Hr Hv. pose proof (reachable_tidy g Hr) as Hg.
  pose proof Hg as (Hs & Hb & Hp & _).
  pose proof (before_descent_shooter inp g Hs Hp) as Hsh.
  pose proof (before_descent_sized inp g Hs) as Hs2.
  pose proof (before_descent_border_clear inp g Hg Hv) as Hb2.
  split; [|split; [exact Hsh|]].
  - intros w g' w' Ht.
    destruct (tick_cases inp g w) as [[_ He]|[(_ & _ & _ & He)|(_ & space3 & Hgate & He)]];
      rewrite He in Ht; try discriminate.
    inversion Ht; subst. split; [reflexivity|].
    destruct (descent_gate_tidy inp g space3 Hg Hv Hgate) as [Hs3 Hb3].
    pose proof (next_game_tidy inp g space3 Hg Hs3 Hb3) as (_ & _ & _ & Hfl & _).
    assert (cell space3 28 (steered (key inp) (shooter_position g)) = SHOOTER) as Hsh3.
    { destruct (descent_due inp g).
      - pose proof (descend_static (before_descent inp g) 28
                      (steered (key inp) (shooter_position g)) Hs2) as Hst.
        rewrite Hgate in Hst. simpl in Hst. rewrite Hst; [assumption| |];
          rewrite Hsh; discriminate.
      - subst. assumption. }
    unfold next_game in *. simpl in *.
    rewrite bullet_step_cell_kept; [assumption| | |].
    + rewrite Hsh3. discriminate.
    + rewrite Hsh3. discriminate.
    + intros Hin. rewrite Forall_forall in Hfl. apply Hfl in Hin.
      unfold in_flight in Hin. simpl in Hin. lia.
  - intros b Hd.
    destruct (descend_landed_from (before_descent inp g) b Hs2) as (j & Hj & He & _).
    + intros j He. rewrite Hb2 in He; [discriminate|].
      unfold on_border, ROWS. auto.
    + assumption.
    + exists j. unfold COLS. repeat split; [lia|lia| |assumption].
      intros ->. rewrite Hsh in He. discriminate.
Qed.

Lemma shooter_cell_holds_shooter_witness :
  cell (space (game_after beside_inputs)) 28 69 = ENEMY /\
  shooter_position (game_after beside_inputs) = 70 /\
  cell (before_descent (Input (ms 15100) "a" 69) (game_after beside_inputs)) 28 69 = SHOOTER /\
  exists g' w',
    tick (Input (ms 15100) "a" 69) (game_after beside_inputs) cooked_world = Ret g' w' /\
    shooter_position g' = 69 /\ cell (space g') 28 69 = SHOOTER.
Proof.
  assert ((let g := game_after beside_inputs in
           Ascii.eqb (cell (space g) 28 69) ENEMY
           && (shooter_position g =? 70)
           && returned (tick (Input (ms 15100) "a" 69) g cooked_world)) = true) as Hrun
    by (vm_compute; reflexivity).
  cbv zeta in Hrun.
  apply andb_true_iff in Hrun as [Hrun Hret].
  apply andb_true_iff in Hrun as [Hcell Hpos].
  apply Ascii.eqb_eq in Hcell. apply Z.eqb_eq in Hpos.
  apply returned_Ret in Hret as (g' & w' & Ht).
  destruct (shooter_cell_holds_shooter (game_after beside_inputs)
              (Input (ms 15100) "a" 69) beside_game_reachable)
    as (Htick & Hdrawn & _).
  { unfold valid_input. cbn [rnd]. lia. }
  cbn [key] in Htick, Hdrawn. rewrite Hpos in Hdrawn.
  change (steered "a" 70) with 69 in Hdrawn.
  split; [exact Hcell|]. split; [exact Hpos|]. split; [exact Hdrawn|].
  exists g', w'. split; [exact Ht|].
  destruct (Htick _ _ _ Ht) as [Hcol Hglyph].
  rewrite Hpos in Hcol. change (steered "a" 70) with 69 in Hcol.
  rewrite Hcol in Hglyph. split; assumption.
Defined.



(** * Further properties of the code *)

(** ** The terminal helpers *)


(** X1: [set_terminal_raw_mode(true)] turns ICANON and ECHO off, leaves
    every other bit of the local flags and the other flag words as they
    were, and a following [set_terminal_raw_mode(false)] puts back exactly
    the attributes found at the first call; neither call touches the file
    flags or the output. *)
Theorem raw_mode_round_trip w :
  exists w1 w2,
    set_terminal_raw_mode true w = Ret tt w1 /\
    set_terminal_raw_mode false w1 = Ret tt w2 /\
    Z.land (c_lflag (tty w1)) ICANON = 0 /\
    Z.land (c_lflag (tty w1)) ECHO = 0 /\
    (forall n, 0 <= n -> Z.testbit (Z.lor ICANON ECHO) n = false ->
               Z.testbit (c_lflag (tty w1)) n = Z.testbit (c_lflag (tty w)) n) /\
    c_iflag (tty w1) = c_iflag (tty w) /\
    c_oflag (tty w1) = c_oflag (tty w) /\
    c_cflag (tty w1) = c_cflag (tty w) /\
    tty w2 = tty w /\
    fd_flags w2 = fd_flags w /\ cout w2 = cout w.
Proof.
  eexists. eexists. split; [reflexivity|]. split; [reflexivity|]. simpl.
  split; [apply land_lnot_lor_l|]. split; [apply land_lnot_lor_r|].
  split; [intros n Hn Hm; apply land_lnot_testbit; assumption|].
  repeat split; reflexivity.
Qed.

(** X2: the saved attributes live in one static variable that every
    enabling call overwrites.  Enabling twice and then disabling leaves
    the terminal with ICANON and ECHO off: the original attributes come
    back only if they had both bits off already. *)
Theorem raw_mode_enabled_twice w :
  exists w',
    (set_terminal_raw_mode true;; set_terminal_raw_mode true;;
     set_terminal_raw_mode false) w = Ret tt w' /\
    tty w' = raw_of (tty w) /\
    (tty w' = tty w <-> Z.land (c_lflag (tty w)) (Z.lor ICANON ECHO) = 0).
Proof.
  eexists. split; [reflexivity|]. simpl.
  split; [reflexivity|]. rewrite termios_lflag_eq. apply land_lnot_fixed.
Qed.

(** X3: [set_non_blocking_input] sets or clears the O_NONBLOCK bit of the
    file flags and nothing else.  Enabling and then disabling gives back
    the original flags exactly when standard input was blocking to begin
    with: a descriptor that was already non-blocking is left blocking. *)
Theorem non_blocking_flag w :
  exists w1 w0 w2,
    set_non_blocking_input true w = Ret tt w1 /\
    set_non_blocking_input false w = Ret tt w0 /\
    set_non_blocking_input false w1 = Ret tt w2 /\
    Z.land (fd_flags w1) O_NONBLOCK = O_NONBLOCK /\
    Z.land (fd_flags w0) O_NONBLOCK = 0 /\
    (forall n, 0 <= n -> Z.testbit O_NONBLOCK n = false ->
               Z.testbit (fd_flags w1) n = Z.testbit (fd_flags w) n /\
               Z.testbit (fd_flags w0) n = Z.testbit (fd_flags w) n) /\
    tty w1 = tty w /\ tty w0 = tty w /\ cout w1 = cout w /\ cout w0 = cout w /\
    fd_flags w2 = fd_flags w0 /\
    (fd_flags w2 = fd_flags w <-> Z.land (fd_flags w) O_NONBLOCK = 0).
Proof.
  eexists. eexists. eexists.
  split; [reflexivity|]. split; [reflexivity|]. split; [reflexivity|]. simpl.
  split; [apply land_lor_same|]. split; [apply land_lnot_off|].
  split.
  { intros n Hn Hm. split; [apply lor_testbit|apply land_lnot_testbit]; assumption. }
  repeat (split; [reflexivity|]).
  split; [apply land_lor_lnot|].
  rewrite land_lor_lnot. apply land_lnot_fixed.
Qed.

(** X4: as long as [main] is in its loop, the terminal has ICANON and ECHO
    off, standard input is non-blocking, and the attributes found at
    start-up are still the saved ones. *)
Theorem running_in_raw_mode t0 t1 t2 inputs w g w' :
  main t0 t1 t2 inputs w = Ret g w' ->
  tty w' = raw_of (tty w) /\
  Z.land (c_lflag (tty w')) ICANON = 0 /\
  Z.land (c_lflag (tty w')) ECHO = 0 /\
  Z.land (fd_flags w') O_NONBLOCK = O_NONBLOCK /\
  oldt w' = tty w.
Proof.
  rewrite main_eq. intros Hl.
  apply loop_Ret_world in Hl as (Htty & Hfl & Hold). simpl in Htty, Hfl, Hold.
  rewrite Htty, Hfl, Hold. unfold raw_of. simpl.
  split; [reflexivity|].
  split; [apply land_lnot_lor_l|]. split; [apply land_lnot_lor_r|].
  split; [apply land_lor_same|reflexivity].
Qed.

Lemma running_in_raw_mode_witness :
  Z.land (fd_flags (printed [CLEAR; frame (space (game_after [Input (ms 100) NUL 1]))]
                            (World (raw_of (tty cooked_world))
                                   (Z.lor (fd_flags cooked_world) O_NONBLOCK)
                                   (tty cooked_world) (raw_of (tty cooked_world)) [])))
         O_NONBLOCK = O_NONBLOCK.
Proof.
  apply (running_in_raw_mode 0 0 0 [Input (ms 100) NUL 1] cooked_world
           (game_after [Input (ms 100) NUL 1])).
  vm_compute. reflexivity.
Defined.

(** X5: when the loop has completed at least one iteration, the last two
    texts written are the clear-screen sequence and the picture of the
    board the game is now in: the screen shows the current state. *)
Theorem screen_shows_current_board inputs g w g' w' :
  loop inputs g w = Ret g' w' -> inputs <> [] ->
  exists before, cout w' = before ++ [CLEAR; frame (space g')].
Proof.
  revert g w. induction inputs as [|inp inputs IH]; intros g w Hl Hne; [contradiction|].
  simpl in Hl. rewrite mbind_eq in Hl.
  destruct (tick inp g w) as [g1 w1|s w1] eqn:Ht; [|discriminate].
  destruct inputs as [|inp' inputs'].
  - simpl in Hl. inversion Hl; subst.
    apply tick_Ret_world in Ht. subst. exists (cout w). reflexivity.
  - apply (IH g1 w1); [assumption|discriminate].
Qed.

Lemma screen_shows_current_board_witness :
  exists before,
    cout (printed [CLEAR; frame (space (game_after [Input (ms 100) NUL 1]))] cooked_world) =
    before ++ [CLEAR; frame (space (game_after [Input (ms 100) NUL 1]))].
Proof.
  apply (screen_shows_current_board [Input (ms 100) NUL 1] (game_start 0 0 0) cooked_world).
  - vm_compute. reflexivity.
  - discriminate.
Defined.

(** ** More invariants of the loop *)

Section LoopFacts.

Implicit Types (g : game) (inp : input) (space : board) (bs : list bullet) (r k : Z).

(** The bullet loops leave a cell as it was, blank, or marked for a bullet
    of the new list. *)
Lemma bullet_step_cell_cases bs space r k :
  cell (fst (bullet_step bs space)) r k = cell space r k \/
  cell (fst (bullet_step bs space)) r k = EMPTY \/
  ((r, k) ∈ snd (bullet_step bs space) /\ cell (fst (bullet_step bs space)) r k = BULLET).
Proof.
  rewrite bullet_step_eq. simpl.
  destruct (draw_bullets_cell (snd (advance_bullets bs (erase_bullets bs space) []))
              (fst (advance_bullets bs (erase_bullets bs space) [])) r k) as [->|?];
    [|right; right; assumption].
  destruct (advance_bullets_cell bs (erase_bullets bs space) r k) as [->|(_ & -> & _)];
    [|right; left; reflexivity].
  destruct (erase_bullets_cell bs space r k) as [->|(_ & -> & _)];
    [left|right; left]; reflexivity.
Qed.

(** A glyph other than a blank or an enemy is where it was before the
    descent. *)
Lemma descend_glyph_from space r k x :
  sized space -> x <> EMPTY -> x <> ENEMY ->
  cell (final (descend space)) r k = x -> cell space r k = x.
Proof.
  intros Hs Hb He.
  destruct (descend_final_inv (fun _ b => cell b r k = x -> cell space r k = x) space)
    as (_ & _ & H); auto.
  intros i b j Hi Hj Hold Hx. apply Hold.
  destruct (descend_cell_change b i j r k) as [Heq|(_ & _ & [[_ Hc]|[_ Hc]])];
    congruence.
Qed.

Lemma fire_keeps_bullets t g b : b ∈ bullets g -> b ∈ fst (fire t g).
Proof.
  intros Hin. unfold fire. destruct (100 <=? _); simpl; [|assumption].
  apply elem_of_app. left. assumption.
Qed.

(** Deployment only ever writes an enemy. *)
Lemma deploy_cell_glyph t c l space r k x :
  x <> ENEMY ->
  cell (fst (deploy t c l space)) r k = x -> cell space r k = x.
Proof.
  intros Hx. unfold deploy. destruct (2 <=? _); simpl; [|auto].
  destruct (cell_put_cases space 1 c ENEMY r k) as [->|[_ ->]]; [auto|].
  intros He. congruence.
Qed.

(** What the shooter and the deployment change before the descent gate. *)
Lemma before_descent_cases inp g r k :
  cell (before_descent inp g) r k = cell (space g) r k \/
  cell (before_descent inp g) r k = EMPTY \/
  ((r, k) = (28, steered (key inp) (shooter_position g)) /\
   cell (before_descent inp g) r k = SHOOTER) \/
  ((r, k) = (1, rnd inp) /\ deploy_due inp g = true /\
   cell (before_descent inp g) r k = ENEMY).
Proof.
  unfold before_descent, deploy, deploy_due, place_shooter.
  destruct (2 <=? seconds (now inp - last_deploy_time g)) eqn:Hdue; simpl.
  - destruct (cell_put_cases
                (put (put (space g) 28 (shooter_position g) EMPTY) 28
                     (steered (key inp) (shooter_position g)) SHOOTER)
                1 (rnd inp) ENEMY r k) as [->|[Heq ->]]; [|auto 6].
    destruct (cell_put_cases (put (space g) 28 (shooter_position g) EMPTY) 28
                (steered (key inp) (shooter_position g)) SHOOTER r k) as [->|[Heq ->]];
      [|auto].
    destruct (cell_put_cases (space g) 28 (shooter_position g) EMPTY r k) as [->|[_ ->]];
      auto.
  - destruct (cell_put_cases (put (space g) 28 (shooter_position g) EMPTY) 28
                (steered (key inp) (shooter_position g)) SHOOTER r k) as [->|[Heq ->]];
      [|auto].
    destruct (cell_put_cases (space g) 28 (shooter_position g) EMPTY r k) as [->|[_ ->]];
      auto.
Qed.

(** The board the descent gate lets through holds a glyph other than a
    blank or an enemy only where the board before the gate did. *)
Lemma gate_glyph_from inp g space3 r k x :
  sized (space g) -> x <> EMPTY -> x <> ENEMY ->
  (if descent_due inp g then descend (before_descent inp g) = Descended space3
   else space3 = before_descent inp g) ->
  cell space3 r k = x -> cell (before_descent inp g) r k = x.
Proof.
  intros Hs Hb He Hgate Hx.
  destruct (descent_due inp g); [|rewrite Hgate in Hx; exact Hx].
  apply descend_glyph_from; auto using before_descent_sized.
  rewrite Hgate. exact Hx.
Qed.

(** The induction over the states of the loop, one completed iteration at
    a time. *)
Lemma reachable_next_ind (P : game -> Prop) :
  (forall t0 t1 t2, P (game_start t0 t1 t2)) ->
  (forall inp g space3,
     reachable g -> valid_input inp ->
     (if descent_due inp g then descend (before_descent inp g) = Descended space3
      else space3 = before_descent inp g) ->
     P g -> P (next_game inp g space3)) ->
  forall g, reachable g -> P g.
Proof.
  intros Hstart Hnext g Hr.
  induction Hr as [t0 t1 t2|g inp w g' w' Hr IH Hv Ht]; [apply Hstart|].
  destruct (tick_cases inp g w) as [[_ He]|[(_ & _ & _ & He)|(_ & space3 & Hgate & He)]];
    rewrite He in Ht; try discriminate.
  inversion Ht; subst. apply Hnext; assumption.
Qed.

Lemma reachable_stored g : reachable g -> forall r k, stored (cell (space g) r k).
Proof.
  intros Hr. pattern g. revert g Hr. apply reachable_next_ind.
  - intros t0 t1 t2 r k. simpl. rewrite fresh_board_cell. left. reflexivity.
  - intros inp g space3 Hr Hv Hgate IH r k.
    pose proof (reachable_tidy g Hr) as (Hs & _).
    assert (forall r k, stored (cell (before_descent inp g) r k)) as Hbd.
    { intros r0 k0. unfold stored.
      destruct (before_descent_cases inp g r0 k0) as [->|[->|[[_ ->]|(_ & _ & ->)]]]; auto.
      apply IH. }
    assert (forall r k, stored (cell space3 r k)) as H3.
    { destruct (descent_due inp g); [|subst; assumption].
      destruct (descend_final_inv
        (fun _ b => forall r k, stored (cell b r k)) (before_descent inp g))
        as (_ & _ & H); auto using before_descent_sized.
      - intros i b j Hi Hj Hb r0 k0. unfold stored.
        destruct (descend_cell_change b i j r0 k0) as [->|(_ & _ & [[_ ->]|[_ ->]])]; auto.
        apply Hb.
      - rewrite Hgate in H. exact H. }
    unfold next_game. simpl. unfold stored.
    destruct (bullet_step_cell_cases (fst (fire (now inp) g)) space3 r k)
      as [->|[->|[_ ->]]]; auto. apply H3.
Qed.

Lemma reachable_synced g : reachable g -> synced g.
Proof.
  intros Hr. pattern g. revert g Hr. apply reachable_next_ind.
  - intros t0 t1 t2 r k. simpl. rewrite fresh_board_cell. split.
    + discriminate.
    + intros Hin. inversion Hin.
  - intros inp g space3 Hr Hv Hgate IH.
    pose proof (reachable_tidy g Hr) as Hg. pose proof Hg as (Hs & _).
    destruct (descent_gate_tidy inp g space3 Hg Hv Hgate) as [Hs3 Hb3].
    pose proof (next_game_tidy inp g space3 Hg Hs3 Hb3) as (_ & _ & _ & Hfl & _).
    unfold synced, next_game in *. simpl in *. intros r k.
    rewrite bullet_step_eq in *. simpl in *.
    set (bs := fst (fire (now inp) g)) in *.
    assert (forall r k, cell (erase_bullets bs space3) r k <> BULLET) as Hclean.
    { intros r0 k0 Hm.
      destruct (erase_bullets_cell bs space3 r0 k0) as [Heq|(_ & Heq & _)];
        [|rewrite Heq in Hm; discriminate].
      rewrite Heq in Hm.
      rewrite erase_bullets_mark in Heq; [rewrite Hm in Heq; discriminate| |assumption].
      apply fire_keeps_bullets. apply IH.
      pose proof (gate_glyph_from inp g space3 r0 k0 BULLET Hs
                    ltac:(discriminate) ltac:(discriminate) Hgate Hm) as Hbd.
      destruct (before_descent_cases inp g r0 k0) as [Heq'|[Heq'|[[_ Heq']|(_ & _ & Heq')]]];
        rewrite Heq' in Hbd; try discriminate. assumption. }
    assert (cell (fst (advance_bullets bs (erase_bullets bs space3) [])) r k <> BULLET)
      as Hclean'.
    { destruct (advance_bullets_cell bs (erase_bullets bs space3) r k) as [->|(_ & -> & _)];
        [apply Hclean|discriminate]. }
    split.
    + intros Hm.
      destruct (draw_bullets_cell (snd (advance_bullets bs (erase_bullets bs space3) []))
                  (fst (advance_bullets bs (erase_bullets bs space3) [])) r k)
        as [Heq|[Hin _]]; [|assumption].
      rewrite Heq in Hm. contradiction.
    + intros Hin. apply draw_bullets_mark; auto using advance_bullets_sized, erase_bullets_sized.
      rewrite Forall_forall in Hfl. apply Hfl in Hin.
      unfold in_flight, inside, ROWS, COLS in *. simpl in Hin. lia.
Qed.

Lemma reachable_lone_shooter g : reachable g -> lone_shooter g.
Proof.
  intros Hr. pattern g. revert g Hr. apply reachable_next_ind.
  - intros t0 t1 t2 r k. simpl. rewrite fresh_board_cell. discriminate.
  - intros inp g space3 Hr Hv Hgate IH.
    pose proof (reachable_tidy g Hr) as (Hs & _ & Hp & _).
    unfold lone_shooter, next_game in *. simpl. intros r k Hsh.
    destruct (bullet_step_cell_cases (fst (fire (now inp) g)) space3 r k)
      as [Heq|[Heq|[_ Heq]]]; rewrite Heq in Hsh; try discriminate.
    apply (gate_glyph_from inp g space3 r k SHOOTER Hs
             ltac:(discriminate) ltac:(discriminate) Hgate) in Hsh.
    unfold before_descent in Hsh. apply deploy_cell_glyph in Hsh; [|discriminate].
    unfold place_shooter in Hsh.
    destruct (cell_put_cases (put (space g) 28 (shooter_position g) EMPTY) 28
                (steered (key inp) (shooter_position g)) SHOOTER r k) as [Heq'|[Heq' _]].
    + exfalso. rewrite Heq' in Hsh.
      destruct (decide ((r, k) = (28, shooter_position g))) as [Hat|Hat].
      * inversion Hat; subst. rewrite cell_put_same in Hsh; [discriminate|assumption|].
        unfold inside, ROWS, COLS in *. lia.
      * rewrite cell_put_other in Hsh by assumption.
        apply IH in Hsh as [-> ->]. contradiction.
    + inversion Heq'. auto.
Qed.

End LoopFacts.

Section LoopResults.

Implicit Types (g : game) (inp : input) (space : board) (bs : list bullet).



Lemma place_shooter_count space p q :
  (enemy_count (place_shooter space p q) <= enemy_count space)%nat.
Proof.
  unfold place_shooter.
  pose proof (enemy_count_put_blank space 28 p EMPTY ltac:(discriminate)).
  pose proof (enemy_count_put_blank (put space 28 p EMPTY) 28 q SHOOTER ltac:(discriminate)).
  lia.
Qed.

Lemma next_game_shooter_cell inp g space3 :
  tidy g -> valid_input inp ->
  (if descent_due inp g then descend (before_descent inp g) = Descended space3
   else space3 = before_descent inp g) ->
  cell (space (next_game inp g space3)) 28 (steered (key inp) (shooter_position g)) = SHOOTER.
Proof.
  intros Hg Hv Hgate. pose proof Hg as (Hs & _ & Hp & _).
  pose proof (before_descent_shooter inp g Hs Hp) as Hsh.
  destruct (descent_gate_tidy inp g space3 Hg Hv Hgate) as [Hs3 Hb3].
  pose proof (next_game_tidy inp g space3 Hg Hs3 Hb3) as (_ & _ & _ & Hfl & _).
  assert (cell space3 28 (steered (key inp) (shooter_position g)) = SHOOTER) as Hsh3.
  { destruct (descent_due inp g); [|subst; assumption].
    pose proof (descend_static (before_descent inp g) 28
                  (steered (key inp) (shooter_position g))
                  (before_descent_sized inp g Hs)) as Hst.
    rewrite Hgate in Hst. simpl in Hst. rewrite Hst; [assumption| |];
      rewrite Hsh; discriminate. }
  unfold next_game in *. simpl in *.
  rewrite bullet_step_cell_kept; [assumption| | |].
  - rewrite Hsh3. discriminate.
  - rewrite Hsh3. discriminate.
  - intros Hin. rewrite Forall_forall in Hfl. apply Hfl in Hin.
    unfold in_flight in Hin. simpl in Hin. lia.
Qed.

End LoopResults.

(** X6: the board and the bullet list agree at the top of every
    iteration: a cell holds a bullet mark exactly when a bullet of the
    list stands there, so no mark is left behind by a bullet that is gone
    and no bullet is without its mark. *)
Theorem marks_match_bullets g :
  reachable g ->
  forall r k, cell (space g) r k = BULLET <-> (r, k) ∈ bullets g.
Proof. intros Hr. apply reachable_synced. assumption. Qed.

Lemma marks_match_bullets_witness :
  cell (space (game_after [Input (ms 100) NUL 1; Input (ms 200) NUL 1])) 25 70 = BULLET <->
  (25, 70) ∈ bullets (game_after [Input (ms 100) NUL 1; Input (ms 200) NUL 1]).
Proof.
  apply (marks_match_bullets (game_after [Input (ms 100) NUL 1; Input (ms 200) NUL 1])).
  apply game_after_reachable; vm_compute; reflexivity.
Defined.



(** X8: only the deployment creates enemies.  Over an iteration that
    returns, the number of enemy cells grows by at most one, and only if
    the deployment interval had elapsed; the shooter, the descent and the
    bullets can only lower it. *)
Theorem enemies_only_deployed g inp w g' w' :
  reachable g -> valid_input inp ->
  tick inp g w = Ret g' w' ->
  (enemy_count (space g') <=
   enemy_count (space g) + (if deploy_due inp g then 1 else 0))%nat.
Proof.
  intros Hr Hv Ht. pose proof (reachable_tidy g Hr) as Hg. pose proof Hg as (Hs & _).
  destruct (tick_cases inp g w) as [[_ He]|[(_ & _ & _ & He)|(_ & space3 & Hgate & He)]];
    rewrite He in Ht; try discriminate.
  inversion Ht; subst. clear Ht He. unfold next_game. simpl.
  pose proof (bullet_step_count (fst (fire (now inp) g)) space3) as [Hstep _].
  assert (enemy_count space3 = enemy_count (before_descent inp g)) as H3.
  { destruct (descent_due inp g); [|subst; reflexivity].
    pose proof (descend_count (before_descent inp g) (before_descent_sized inp g Hs)) as Hc.
    rewrite Hgate in Hc. exact Hc. }
  assert (enemy_count (before_descent inp g) <=
          enemy_count (space g) + (if deploy_due inp g then 1 else 0))%nat as Hbd.
  { unfold before_descent, deploy, deploy_due.
    pose proof (place_shooter_count (space g) (shooter_position g)
                  (steered (key inp) (shooter_position g))) as Hps.
    destruct (2 <=? seconds (now inp - last_deploy_time g)); simpl; [|lia].
    pose proof (enemy_count_put_enemy
                  (place_shooter (space g) (shooter_position g)
                     (steered (key inp) (shooter_position g))) 1 (rnd inp)
                  (place_shooter_sized _ _ _ Hs)) as Hput.
    unfold valid_input in Hv.
    assert (inside 1 (rnd inp)) as Hin by (unfold inside, ROWS, COLS; lia).
    specialize (Hput Hin). lia. }
  lia.
Qed.

Lemma enemies_only_deployed_witness :
  (enemy_count (space (next_game (Input (ms 2000) NUL 5) (game_start 0 0 0)
                         (final (descend (before_descent (Input (ms 2000) NUL 5)
                                            (game_start 0 0 0)))))) <=
   enemy_count (space (game_start 0 0 0)) +
   (if deploy_due (Input (ms 2000) NUL 5) (game_start 0 0 0) then 1 else 0))%nat.
Proof.
  apply (enemies_only_deployed (game_start 0 0 0) (Input (ms 2000) NUL 5) cooked_world _
           (printed [CLEAR; frame (space (next_game (Input (ms 2000) NUL 5) (game_start 0 0 0)
                         (final (descend (before_descent (Input (ms 2000) NUL 5)
                                            (game_start 0 0 0))))))] cooked_world)).
  - apply reach_start.
  - unfold valid_input. simpl. lia.
  - vm_compute. reflexivity.
Defined.

(** X9: the shooter glyph stands in at most one cell, the shooter's: in
    every state of the loop a cell that reads ['A'] is cell
    (28, shooter_position), and after any completed iteration that cell
    does read ['A'], so the board shows exactly one shooter. *)
Theorem one_shooter g :
  reachable g ->
  (forall r k, cell (space g) r k = SHOOTER -> r = 28 /\ k = shooter_position g) /\
  (forall inp w g' w',
     valid_input inp -> tick inp g w = Ret g' w' ->
     forall r k, cell (space g') r k = SHOOTER <-> (r, k) = (28, shooter_position g')).
Proof.
  intros Hr. split; [apply reachable_lone_shooter; assumption|].
  intros inp w g' w' Hv Ht r k.
  assert (reachable g') as Hr' by (eapply reach_tick; eauto).
  split.
  - intros Hsh. apply (reachable_lone_shooter g' Hr') in Hsh as [-> ->]. reflexivity.
  - intros Heq. inversion Heq; subst.
    destruct (tick_cases inp g w) as [[_ He]|[(_ & _ & _ & He)|(_ & space3 & Hgate & He)]];
      rewrite He in Ht; try discriminate.
    inversion Ht; subst.
    apply next_game_shooter_cell; auto using reachable_tidy.
Qed.

Lemma one_shooter_witness :
  28 = 28 /\ 70 = shooter_position (game_after [Input (ms 100) NUL 1]).
Proof.
  apply (proj1 (one_shooter (game_after [Input (ms 100) NUL 1])
                  (game_after_reachable [Input (ms 100) NUL 1] eq_refl eq_refl)) 28 70).
  vm_compute. reflexivity.
Defined.

(** X10: a cell of the board only ever holds a blank, an enemy, a bullet
    mark or the shooter.  The border glyph ['0'] is never stored: it
    exists in the output of [print_board] only. *)
Theorem stored_glyphs g :
  reachable g ->
  forall r k,
    (cell (space g) r k = EMPTY \/ cell (space g) r k = ENEMY \/
     cell (space g) r k = BULLET \/ cell (space g) r k = SHOOTER) /\
    cell (space g) r k <> BORDER.
Proof.
  intros Hr r k. pose proof (reachable_stored g Hr r k) as Hst. split; [exact Hst|].
  intros Hb. unfold stored in Hst. rewrite Hb in Hst.
  destruct Hst as [H|[H|[H|H]]]; discriminate.
Qed.

Lemma stored_glyphs_witness :
  cell (space (game_after under_inputs)) 27 69 = EMPTY \/
  cell (space (game_after under_inputs)) 27 69 = ENEMY \/
  cell (space (game_after under_inputs)) 27 69 = BULLET \/
  cell (space (game_after under_inputs)) 27 69 = SHOOTER.
Proof.
  apply (stored_glyphs (game_after under_inputs) under_game_reachable 27 69).
Defined.

(** ** How an iteration ends, and the keys *)

(** X11: how an iteration ends.  With ['q'] pending it quits, whatever
    the board.  Otherwise it ends the game exactly when the descent
    interval has elapsed and the board handed to [update_board] has an
    enemy in row 28, in one of the columns 1 to 158; in every other case
    it returns and the loop goes on. *)
Theorem iteration_outcome g inp w :
  reachable g -> valid_input inp ->
  (key inp = "q"%char ->
   tick inp g w = Exit 0 (printed [String.append "Quit." NL] (restored w))) /\
  (key inp <> "q"%char ->
   (tick inp g w = Exit 0 (printed [CLEAR; String.append "You lost" NL] (restored w)) <->
    descent_due inp g = true /\
    exists j, 1 <= j <= COLS - 2 /\ cell (before_descent inp g) (ROWS - 2) j = ENEMY) /\
   ((exists g' w', tick inp g w = Ret g' w') <->
    ~ (descent_due inp g = true /\
       exists j, 1 <= j <= COLS - 2 /\ cell (before_descent inp g) (ROWS - 2) j = ENEMY))).
Proof.
  intros Hr Hv. pose proof (reachable_tidy g Hr) as Hg. pose proof Hg as (Hs & _).
  pose proof (before_descent_sized inp g Hs) as Hs2.
  pose proof (before_descent_border_clear inp g Hg Hv) as Hb2.
  assert (forall j, cell (before_descent inp g) 29 j = EMPTY) as H29
    by (intros j; apply Hb2; unfold on_border, ROWS; auto).
  split.
  { intros Hq.
    destruct (tick_cases inp g w) as [[_ He]|[(Hn & _)|(Hn & _)]];
      [exact He|contradiction|contradiction]. }
  intros Hq.
  assert (forall b, descend (before_descent inp g) = Landed b ->
            exists j, 1 <= j <= COLS - 2 /\ cell (before_descent inp g) (ROWS - 2) j = ENEMY)
    as Hfrom.
  { intros b Hl.
    destruct (descend_landed_from (before_descent inp g) b Hs2) as (j & Hj & He & _).
    - intros j. rewrite H29. discriminate.
    - assumption.
    - exists j. unfold COLS, ROWS. split; [lia|exact He]. }
  assert (forall j, 1 <= j <= COLS - 2 ->
            cell (before_descent inp g) (ROWS - 2) j = ENEMY ->
            exists b, descend (before_descent inp g) = Landed b) as Hto.
  { intros j Hj He. apply (descend_lands (before_descent inp g) j Hs2).
    - unfold COLS in Hj. lia.
    - right. split; [exact He|apply H29]. }
  destruct (tick_cases inp g w) as [[? _]|[(_ & Hdue & [b Hl] & He)|(_ & space3 & Hgate & He)]];
    [contradiction| |].
  - split; split.
    + intros _. split; [exact Hdue|]. apply (Hfrom b Hl).
    + intros _. exact He.
    + intros (g' & w' & Ht). rewrite He in Ht. discriminate.
    + intros Hno. exfalso. apply Hno. split; [exact Hdue|]. apply (Hfrom b Hl).
  - assert (~ (descent_due inp g = true /\
               exists j, 1 <= j <= COLS - 2 /\
                         cell (before_descent inp g) (ROWS - 2) j = ENEMY)) as Hno.
    { intros [Hdue (j & Hj & Hen)]. rewrite Hdue in Hgate.
      destruct (Hto j Hj Hen) as [b Hl]. congruence. }
    split; split.
    + intros Ht. rewrite He in Ht. discriminate.
    + intros Hyes. contradiction.
    + intros _. exact Hno.
    + intros _. eauto.
Qed.

Lemma iteration_outcome_witness :
  tick (Input (ms 100) "q" 1) (game_start 0 0 0) cooked_world =
  Exit 0 (printed [String.append "Quit." NL] (restored cooked_world)).
Proof.
  apply (iteration_outcome (game_start 0 0 0) (Input (ms 100) "q" 1) cooked_world).
  - apply reach_start.
  - unfold valid_input. simpl. lia.
  - reflexivity.
Defined.

Lemma tick_Ret_position inp g w g' w' :
  tick inp g w = Ret g' w' ->
  shooter_position g' = steered (key inp) (shooter_position g).
Proof.
  intros Ht.
  destruct (tick_cases inp g w) as [[_ He]|[(_ & _ & _ & He)|(_ & space3 & _ & He)]];
    rewrite He in Ht; try discriminate.
  inversion Ht; subst. reflexivity.
Qed.

(** X12: holding a movement key.  Over [n] iterations that all read
    ['a'] the shooter goes [n] columns to the left and stops at column 1;
    over [n] iterations that all read ['d'] it goes [n] columns to the
    right and stops at column 158. *)
Theorem holding_a_key inputs g w g' w' :
  1 <= shooter_position g <= COLS - 2 ->
  loop inputs g w = Ret g' w' ->
  (Forall (fun inp => key inp = "a"%char) inputs ->
   shooter_position g' = Z.max 1 (shooter_position g - Z.of_nat (length inputs))) /\
  (Forall (fun inp => key inp = "d"%char) inputs ->
   shooter_position g' = Z.min (COLS - 2) (shooter_position g + Z.of_nat (length inputs))).
Proof.
  revert g w. induction inputs as [|inp inputs IH]; intros g w Hp Hl.
  - simpl in Hl. inversion Hl; subst. simpl. split; intros _; lia.
  - simpl in Hl. rewrite mbind_eq in Hl.
    destruct (tick inp g w) as [g1 w1|s w1] eqn:Ht; [|discriminate].
    pose proof (tick_Ret_position _ _ _ _ _ Ht) as Hpos.
    pose proof (steered_range (key inp) (shooter_position g) Hp) as Hp1.
    rewrite <- Hpos in Hp1.
    destruct (IH g1 w1 Hp1 Hl) as [IHa IHd].
    split; intros Hall; inversion Hall as [|? ? Hk Hrest]; subst.
    + rewrite (IHa Hrest), Hpos, Hk. unfold steered. simpl Ascii.eqb. cbv iota.
      simpl length. destruct (Z.ltb_spec 1 (shooter_position g)); lia.
    + rewrite (IHd Hrest), Hpos, Hk. unfold steered. simpl Ascii.eqb. cbv iota.
      simpl length. unfold COLS in *.
      destruct (Z.ltb_spec (shooter_position g) (160 - 2)); lia.
Qed.

Lemma holding_a_key_witness :
  shooter_position (game_after [Input (ms 10) "a" 1; Input (ms 20) "a" 1]) =
  Z.max 1 (shooter_position (game_start 0 0 0) -
           Z.of_nat (length [Input (ms 10) "a" 1; Input (ms 20) "a" 1])).
Proof.
  apply (holding_a_key [Input (ms 10) "a" 1; Input (ms 20) "a" 1] (game_start 0 0 0)
           cooked_world (game_after [Input (ms 10) "a" 1; Input (ms 20) "a" 1])
           (world_after [Input (ms 10) "a" 1; Input (ms 20) "a" 1])).
  - simpl. unfold COLS. lia.
  - vm_compute. reflexivity.
  - repeat constructor.
Defined.

(** ** Deployment *)

Section DeployFacts.

Lemma put_same_glyph space i j c :
  cell space i j = c -> c <> EMPTY -> put space i j c = space.
Proof.
  unfold cell, put. intros Hc Hne.
  destruct ((0 <=? i) && (0 <=? j)); [|congruence].
  destruct (space !! Z.to_nat i) as [row|] eqn:Hrow; [|congruence].
  destruct (row !! Z.to_nat j) as [x|] eqn:Hx; [|congruence]. subst x.
  apply list_eq. intros n.
  destruct (decide (Z.to_nat i = n)) as [<-|Hn].
  - rewrite list_lookup_alter_eq, Hrow. simpl. rewrite list_insert_id by assumption.
    reflexivity.
  - rewrite list_lookup_alter_ne by assumption. reflexivity.
Qed.

End DeployFacts.

(** X13: the deployment overwrites.  When its interval has elapsed it
    writes an enemy into row 1 of the drawn column whatever that cell
    holds, changes no other cell, and restarts its timer; the number of
    enemies grows by one unless the cell held an enemy already, in which
    case the board is unchanged.  When the interval has not elapsed
    nothing happens. *)
Theorem deploy_overwrites t c l space :
  sized space -> 1 <= c <= COLS - 2 ->
  ((2 <=? seconds (t - l)) = true ->
   snd (deploy t c l space) = t /\
   cell (fst (deploy t c l space)) 1 c = ENEMY /\
   (forall r k, (r, k) <> (1, c) -> cell (fst (deploy t c l space)) r k = cell space r k) /\
   (enemy_count (fst (deploy t c l space)) + is_enemy (cell space 1 c))%nat =
     S (enemy_count space) /\
   (cell space 1 c = ENEMY -> fst (deploy t c l space) = space)) /\
  ((2 <=? seconds (t - l)) = false -> deploy t c l space = (space, l)).
Proof.
  intros Hs Hc. unfold deploy.
  assert (inside 1 c) as Hin by (unfold inside, ROWS, COLS in *; lia).
  split; intros Hdue; rewrite Hdue; [|reflexivity]. simpl.
  split; [reflexivity|].
  split; [apply cell_put_same; assumption|].
  split; [intros r k Hne; apply cell_put_other; assumption|].
  split; [apply enemy_count_put_enemy; assumption|].
  intros He. apply put_same_glyph; [assumption|discriminate].
Qed.

Lemma deploy_overwrites_witness :
  cell (fst (deploy (ms 2000) 5 0 (put (fresh_board ROWS COLS) 1 5 BULLET))) 1 5 = ENEMY.
Proof.
  apply (deploy_overwrites (ms 2000) 5 0 (put (fresh_board ROWS COLS) 1 5 BULLET)).
  - apply put_sized, fresh_board_sized.
  - unfold COLS. lia.
  - reflexivity.
Defined.

(** ** Enemies that move, enemies that are hit *)

(** X14: an enemy with a blank cell below it goes down one row in every
    descent the game survives: on a board of the size of [main], an enemy
    in rows 1 to 27 of columns 1 to 158 over a blank cell stands in that
    cell when [update_board] returns. *)
Theorem enemy_advances space i j b' :
  sized space -> 1 <= i <= ROWS - 3 -> 1 <= j <= COLS - 2 ->
  cell space i j = ENEMY -> cell space (i + 1) j = EMPTY ->
  descend space = Descended b' ->
  cell b' (i + 1) j = ENEMY.
Proof.
  intros Hs Hi Hj He Hb Hd. unfold ROWS, COLS in *.
  rewrite descend_sized_eq in Hd by assumption.
  rewrite (row_order_split (Z.to_nat i)) in Hd by lia.
  replace (Z.of_nat (Z.to_nat i)) with i in Hd by lia.
  rewrite descend_rows_app in Hd.
  destruct (descend_rows (rev (seqZ (i + 1) (Z.of_nat (28 - Z.to_nat i)))) (seqZ 1 158) space)
    as [b1|b1] eqn:Hhi; [|discriminate].
  assert (sized b1 /\ cell b1 i j = ENEMY /\ cell b1 (i + 1) j = EMPTY) as (Hs1 & He1 & Hb1).
  { apply (descend_rows_keep
             (fun b => sized b /\ cell b i j = ENEMY /\ cell b (i + 1) j = EMPTY)
             (rev (seqZ (i + 1) (Z.of_nat (28 - Z.to_nat i)))) (seqZ 1 158) space b1);
      [|auto|exact Hhi].
    intros r c b Hr Hc (Hsb & H1 & H2).
    apply elem_of_rev, elem_of_seqZ in Hr.
    split; [apply descend_cell_sized; assumption|]. split.
    - rewrite descend_cell_other; [assumption| |]; intros Heq; inversion Heq; lia.
    - destruct (descend_cell_change b r c (i + 1) j) as [->|(Hsrc & _ & [[_ Hc']|[Hc' _]])];
        [assumption|assumption|]. inversion Hc'; lia. }
  cbn [descend_rows] in Hd.
  destruct (descend_row (seqZ 1 158) i b1) as [b2|b2] eqn:Hmid; [|discriminate].
  destruct (descend_row_moves (seqZ 1 158) i j b1 b2) as [_ Hdst]; auto.
  { unfold inside, ROWS, COLS. lia. }
  { unfold inside, ROWS, COLS. lia. }
  { apply elem_of_seqZ. lia. }
  apply (descend_rows_keep (fun b => cell b (i + 1) j = ENEMY)
           (rev (seqZ 1 (Z.of_nat (Z.to_nat i - 1)))) (seqZ 1 158) b2 b');
    [|assumption|exact Hd].
  intros r c b Hr Hc H1. apply elem_of_rev, elem_of_seqZ in Hr.
  rewrite descend_cell_other; [assumption| |]; intros Heq; inversion Heq; lia.
Qed.

Lemma enemy_advances_witness :
  cell (put (fresh_board ROWS COLS) 6 80 ENEMY) (5 + 1) 80 = ENEMY.
Proof.
  apply (enemy_advances (put (fresh_board ROWS COLS) 5 80 ENEMY) 5 80).
  - apply put_sized, fresh_board_sized.
  - unfold ROWS. lia.
  - unfold COLS. lia.
  - vm_compute. reflexivity.
  - vm_compute. reflexivity.
  - vm_compute. reflexivity.
Defined.

(** X15: the bullet loops destroy an enemy only from the cell directly
    below it: an enemy at (r, k) is still there after them exactly when
    the list holds no bullet at (r + 1, k), or r is below 1. *)
Theorem enemy_hit_only_from_below bs space r k :
  cell space r k = ENEMY ->
  (cell (fst (bullet_step bs space)) r k = ENEMY <-> ~ ((r + 1, k) ∈ bs /\ 1 <= r)).
Proof. apply bullet_step_enemy. Qed.

Lemma enemy_hit_only_from_below_witness :
  cell (fst (bullet_step [(6, 80)] (put (fresh_board ROWS COLS) 5 80 ENEMY))) 5 80 = ENEMY <->
  ~ ((5 + 1, 80) ∈ [(6, 80)] /\ 1 <= 5).
Proof.
  apply (enemy_hit_only_from_below [(6, 80)] (put (fresh_board ROWS COLS) 5 80 ENEMY) 5 80).
  vm_compute. reflexivity.
Defined.

(** X16: an enemy that has come down to row 27 or 28 can no longer be
    shot.  New bullets are enqueued in row 27 and move up before they are
    compared with the board, so in every iteration the loop reaches the
    bullet loops leave an enemy in those rows where it is. *)
Theorem enemy_past_the_muzzle g inp space3 r k :
  reachable g -> 27 <= r ->
  cell space3 r k = ENEMY ->
  cell (fst (bullet_step (fst (fire (now inp) g)) space3)) r k = ENEMY.
Proof.
  intros Hr Hrow He. apply bullet_step_enemy; [assumption|].
  intros [Hin _].
  pose proof (fire_bullets (now inp) g (reachable_tidy g Hr)) as Hall.
  rewrite Forall_forall in Hall. apply Hall in Hin. simpl in Hin. lia.
Qed.

Lemma enemy_past_the_muzzle_witness :
  cell (fst (bullet_step (fst (fire (ms 100) (game_start 0 0 0)))
                         (put (fresh_board ROWS COLS) 27 70 ENEMY))) 27 70 = ENEMY.
Proof.
  apply (enemy_past_the_muzzle (game_start 0 0 0) (Input (ms 100) NUL 1)).
  - apply reach_start.
  - lia.
  - vm_compute. reflexivity.
Defined.

(** ** [print_board] *)

Section FrameFacts.

Local Open Scope nat_scope.

Lemma string_length_append (a b : string) :
  String.length (String.append a b) = String.length a + String.length b.
Proof. induction a as [|c a IH]; simpl; [reflexivity|]. rewrite IH. reflexivity. Qed.

Lemma string_get_append (a b : string) (n : nat) :
  String.get n (String.append a b) =
  if decide (n < String.length a) then String.get n a
  else String.get (n - String.length a) b.
Proof.
  revert n. induction a as [|c a IH]; intros n; simpl.
  - rewrite Nat.sub_0_r. reflexivity.
  - destruct n as [|n]; [reflexivity|]. rewrite IH. simpl.
    destruct (decide (n < String.length a)), (decide (S n < S (String.length a)));
      try reflexivity; lia.
Qed.

Lemma string_length_of_list (l : list ascii) :
  String.length (string_of_list_ascii l) = length l.
Proof. induction l as [|c l IH]; simpl; [reflexivity|]. rewrite IH. reflexivity. Qed.

Lemma string_get_of_list (l : list ascii) (n : nat) :
  String.get n (string_of_list_ascii l) = l !! n.
Proof.
  revert n. induction l as [|c l IH]; intros n; simpl; [destruct n; reflexivity|].
  destruct n as [|n]; [reflexivity|]. apply IH.
Qed.

Lemma string_concat_cons (x : string) (xs : list string) :
  String.concat EmptyString (x :: xs) = String.append x (String.concat EmptyString xs).
Proof.
  destruct xs as [|y ys]; simpl; [|reflexivity].
  induction x as [|c x IH]; simpl; [reflexivity|]. rewrite <- IH. reflexivity.
Qed.

(** Lines of one length laid end to end. *)
Lemma string_concat_length (ls : list string) (m : nat) :
  Forall (fun l => String.length l = m) ls ->
  String.length (String.concat EmptyString ls) = length ls * m.
Proof.
  induction ls as [|l ls IH]; intros Hall; [reflexivity|].
  inversion Hall; subst. rewrite string_concat_cons, string_length_append, IH by assumption.
  simpl. reflexivity.
Qed.

Lemma string_concat_get (ls : list string) (m i j : nat) :
  Forall (fun l => String.length l = m) ls -> j < m ->
  String.get (i * m + j) (String.concat EmptyString ls) =
  match ls !! i with
  | Some l => String.get j l
  | None => None
  end.
Proof.
  revert i. induction ls as [|l ls IH]; intros i Hall Hj.
  - simpl. reflexivity.
  - inversion Hall as [|? ? Hl Hrest]; subst.
    rewrite string_concat_cons, string_get_append.
    destruct i as [|i]; simpl.
    + destruct (decide (j < String.length l)); [reflexivity|lia].
    + destruct (decide (String.length l + i * String.length l + j < String.length l));
        [lia|].
      replace (String.length l + i * String.length l + j - String.length l)
        with (i * String.length l + j) by lia.
      apply IH; assumption.
Qed.

End FrameFacts.

Section FrameOfBoard.

Implicit Types (space : board).

(** The text of row [i] of the picture. *)
Lemma frame_lines space :
  sized space ->
  Forall (fun l => String.length l = 161%nat)
    (imap (fun i row =>
             String.append
               (string_of_list_ascii
                  (imap (fun j c => glyph 30 160 (Z.of_nat i) (Z.of_nat j) c) row))
               NL)
          space).
Proof.
  intros [_ Hrows]. apply Forall_forall. intros l Hl.
  apply list_elem_of_lookup in Hl as [n Hn].
  rewrite list_lookup_imap in Hn.
  destruct (space !! n) as [row|] eqn:Hrow; [|discriminate]. simpl in Hn.
  inversion Hn; subst.
  rewrite string_length_append, string_length_of_list, length_imap.
  eapply Forall_lookup_1 in Hrows; [|exact Hrow]. rewrite Hrows. reflexivity.
Qed.

Lemma frame_sized_eq space :
  sized space ->
  frame space =
  String.concat EmptyString
    (imap (fun i row =>
             String.append
               (string_of_list_ascii
                  (imap (fun j c => glyph 30 160 (Z.of_nat i) (Z.of_nat j) c) row))
               NL)
          space).
Proof.
  intros [Hlen Hrows]. unfold frame. rewrite Hlen.
  destruct space as [|row0 rest]; [discriminate|].
  inversion Hrows as [|? ? Hrow0 _]; subst. rewrite Hrow0. reflexivity.
Qed.

(** The picture of a board of the size of [main], character by
    character. *)
Lemma frame_cells space :
  sized space ->
  String.length (frame space) = (30 * 161)%nat /\
  (forall i j, 0 <= i < ROWS -> 0 <= j < COLS ->
     String.get (Z.to_nat (i * 161 + j)) (frame space) =
     Some (if ((i =? 0) || (i =? ROWS - 1) || (j =? 0) || (j =? COLS - 1))
              && Ascii.eqb (cell space i j) EMPTY
           then BORDER else cell space i j)) /\
  (forall i, 0 <= i < ROWS ->
     String.get (Z.to_nat (i * 161 + 160)) (frame space) = Some "010"%char).
Proof.
  intros Hs. pose proof (frame_lines space Hs) as Hlines.
  rewrite frame_sized_eq by assumption. destruct Hs as [Hlen Hrows].
  unfold ROWS, COLS in *.
  split; [|split].
  - rewrite (string_concat_length _ 161%nat Hlines), length_imap, Hlen. reflexivity.
  - intros i j Hi Hj.
    replace (Z.to_nat (i * 161 + j)) with (Z.to_nat i * 161 + Z.to_nat j)%nat by lia.
    rewrite (string_concat_get _ 161%nat) by (assumption || lia).
    rewrite list_lookup_imap.
    destruct (lookup_lt_is_Some_2 space (Z.to_nat i)) as [row Hrow]; [lia|].
    assert (length row = Z.to_nat 160) as Hr by (eapply Forall_lookup_1 in Hrows; eauto).
    destruct (lookup_lt_is_Some_2 row (Z.to_nat j)) as [c Hc]; [lia|].
    rewrite Hrow. simpl.
    rewrite string_get_append, string_length_of_list, length_imap.
    destruct (decide (Z.to_nat j < length row)%nat); [|lia].
    rewrite string_get_of_list, list_lookup_imap, Hc. simpl.
    assert (cell space i j = c) as ->.
    { unfold cell.
      replace ((0 <=? i) && (0 <=? j)) with true
        by (symmetry; apply andb_true_iff; split; apply Z.leb_le; lia).
      rewrite Hrow, Hc. reflexivity. }
    unfold glyph. rewrite !Z2Nat.id by lia. reflexivity.
  - intros i Hi.
    replace (Z.to_nat (i * 161 + 160)) with (Z.to_nat i * 161 + 160)%nat by lia.
    rewrite (string_concat_get _ 161%nat) by (assumption || lia).
    rewrite list_lookup_imap.
    destruct (lookup_lt_is_Some_2 space (Z.to_nat i)) as [row Hrow]; [lia|].
    assert (length row = Z.to_nat 160) as Hr by (eapply Forall_lookup_1 in Hrows; eauto).
    rewrite Hrow. simpl.
    rewrite string_get_append, string_length_of_list, length_imap.
    destruct (decide (160 < length row)%nat); [lia|].
    rewrite Hr. reflexivity.
Qed.

End FrameOfBoard.

(** X17: the picture [print_board] writes for a board of the size of
    [main] is 30 lines of 160 characters, each followed by a newline.
    The character for cell (i, j) is the ['0'] of the border if the cell
    lies on the outermost ring and is blank, and the stored character
    otherwise. *)
Theorem frame_shape space :
  sized space ->
  String.length (frame space) = (30 * 161)%nat /\
  (forall i j, 0 <= i < ROWS -> 0 <= j < COLS ->
     String.get (Z.to_nat (i * 161 + j)) (frame space) =
     Some (if ((i =? 0) || (i =? ROWS - 1) || (j =? 0) || (j =? COLS - 1))
              && Ascii.eqb (cell space i j) EMPTY
           then BORDER else cell space i j)) /\
  (forall i, 0 <= i < ROWS ->
     String.get (Z.to_nat (i * 161 + 160)) (frame space) = Some "010"%char).
Proof. apply frame_cells. Qed.

Lemma frame_shape_witness :
  String.length (frame (fresh_board ROWS COLS)) = (30 * 161)%nat.
Proof.
  apply (frame_shape (fresh_board ROWS COLS)). apply fresh_board_sized.
Defined.

(** X18: what the player sees while the game runs.  In the picture of any
    state the loop reaches, every position of the outermost ring shows
    ['0'], every position inside it shows the character stored in the
    cell, and no position inside shows ['0']. *)
Theorem picture_of_running_game g i j :
  reachable g -> 0 <= i < ROWS -> 0 <= j < COLS ->
  (on_border i j ->
   String.get (Z.to_nat (i * 161 + j)) (frame (space g)) = Some BORDER) /\
  (~ on_border i j ->
   String.get (Z.to_nat (i * 161 + j)) (frame (space g)) = Some (cell (space g) i j) /\
   cell (space g) i j <> BORDER).
Proof.
  intros Hr Hi Hj. pose proof (reachable_tidy g Hr) as (Hs & Hb & _).
  destruct (frame_cells (space g) Hs) as (_ & Hget & _).
  rewrite (Hget i j Hi Hj). unfold on_border, ROWS, COLS in *.
  split.
  - intros Hon. rewrite (Hb i j) by (unfold on_border, ROWS, COLS; exact Hon).
    replace ((i =? 0) || (i =? 30 - 1) || (j =? 0) || (j =? 160 - 1)) with true;
      [reflexivity|].
    symmetry. rewrite !orb_true_iff, !Z.eqb_eq. tauto.
  - intros Hoff.
    replace ((i =? 0) || (i =? 30 - 1) || (j =? 0) || (j =? 160 - 1)) with false.
    + split; [reflexivity|].
      pose proof (reachable_stored g Hr i j) as Hst. unfold stored in Hst.
      intros Hc. rewrite Hc in Hst. destruct Hst as [H|[H|[H|H]]]; discriminate.
    + symmetry. rewrite !orb_false_iff, !Z.eqb_neq. lia.
Qed.

Lemma picture_of_running_game_witness :
  String.get (Z.to_nat (0 * 161 + 5)) (frame (space (game_start 0 0 0))) = Some BORDER.
Proof.
  apply (picture_of_running_game (game_start 0 0 0) 0 5).
  - apply reach_start.
  - unfold ROWS. lia.
  - unfold COLS. lia.
  - unfold on_border. left. reflexivity.
Defined.

(** ** The timers and the flight of the bullets *)

Section GateFacts.

Lemma quot_threshold (k c d : Z) :
  0 < k -> 0 < c -> ((k <=? Z.quot d c) = true <-> k * c <= d).
Proof.
  intros Hk Hc. rewrite Z.leb_le.
  destruct (Z.le_gt_cases 0 d) as [Hd|Hd].
  - rewrite Z.quot_div_nonneg by lia. split; intros H.
    + pose proof (Z.mul_div_le d c Hc). nia.
    + apply Z.div_le_lower_bound; lia.
  - assert (Z.quot d c <= 0) as Hq.
    { replace d with (- (- d)) by lia. rewrite Z.quot_opp_l by lia.
      pose proof (Z.quot_pos (- d) c). lia. }
    split; intros H; nia.
Qed.

End GateFacts.

(** X19: the three timers, for clock readings whose differences are
    spans the clock can hold (signed 64-bit ticks), where the subtraction
    of the gates is the one the source makes.  Each gate compares the
    whole number of milliseconds (seconds, for the deployment) elapsed on
    the clock, so with the clock counting nanoseconds the firing is due
    exactly from 100 000 000 ticks on, the descent from 500 000 000 and
    the deployment from 2 000 000 000, and a clock reading that lies
    before the stored one triggers no gate.  An iteration that returns
    has set the timer of every gate that was due to the clock reading and
    left the others, and has enqueued at most one bullet. *)
Theorem gates_and_timers g inp :
  clock_span (now inp - last_bullet_time g) ->
  clock_span (now inp - last_frame_time g) ->
  clock_span (now inp - last_deploy_time g) ->
  (fire_due inp g = true <-> 100000000 <= now inp - last_bullet_time g) /\
  (descent_due inp g = true <-> 500000000 <= now inp - last_frame_time g) /\
  (deploy_due inp g = true <-> 2000000000 <= now inp - last_deploy_time g) /\
  (now inp < last_bullet_time g -> fire_due inp g = false) /\
  (now inp < last_frame_time g -> descent_due inp g = false) /\
  (now inp < last_deploy_time g -> deploy_due inp g = false) /\
  forall w g' w',
    tick inp g w = Ret g' w' ->
    last_bullet_time g' = (if fire_due inp g then now inp else last_bullet_time g) /\
    last_frame_time g' = (if descent_due inp g then now inp else last_frame_time g) /\
    last_deploy_time g' = (if deploy_due inp g then now inp else last_deploy_time g) /\
    clock_span (now inp - last_bullet_time g') /\
    clock_span (now inp - last_frame_time g') /\
    clock_span (now inp - last_deploy_time g') /\
    (length (bullets g') <= length (bullets g) + (if fire_due inp g then 1 else 0))%nat.
Proof.
  intros Hfire Hframe Hdeploy.
  assert (fire_due inp g = true <-> 100000000 <= now inp - last_bullet_time g) as H1
    by (unfold fire_due, milliseconds; rewrite quot_threshold by lia; lia).
  assert (descent_due inp g = true <-> 500000000 <= now inp - last_frame_time g) as H2
    by (unfold descent_due, milliseconds; rewrite quot_threshold by lia; lia).
  assert (deploy_due inp g = true <-> 2000000000 <= now inp - last_deploy_time g) as H3
    by (unfold deploy_due, seconds; rewrite quot_threshold by lia; lia).
  split; [exact H1|]. split; [exact H2|]. split; [exact H3|].
  split; [intros Hlt; apply not_true_is_false; rewrite H1; lia|].
  split; [intros Hlt; apply not_true_is_false; rewrite H2; lia|].
  split; [intros Hlt; apply not_true_is_false; rewrite H3; lia|].
  intros w g' w' Ht.
  destruct (tick_cases inp g w) as [[_ He]|[(_ & _ & _ & He)|(_ & space3 & _ & He)]];
    rewrite He in Ht; try discriminate.
  inversion Ht; subst. clear Ht He.
  assert (last_bullet_time (next_game inp g space3) =
          (if fire_due inp g then now inp else last_bullet_time g)) as Hb
    by (unfold next_game, fire, fire_due; simpl; destruct (100 <=? _); reflexivity).
  assert (last_frame_time (next_game inp g space3) =
          (if descent_due inp g then now inp else last_frame_time g)) as Hf
    by reflexivity.
  assert (last_deploy_time (next_game inp g space3) =
          (if deploy_due inp g then now inp else last_deploy_time g)) as Hd
    by (unfold next_game, deploy, deploy_due; simpl; destruct (2 <=? _); reflexivity).
  split; [exact Hb|]. split; [exact Hf|]. split; [exact Hd|].
  split; [rewrite Hb; unfold clock_span in *; destruct (fire_due inp g); lia|].
  split; [rewrite Hf; unfold clock_span in *; destruct (descent_due inp g); lia|].
  split; [rewrite Hd; unfold clock_span in *; destruct (deploy_due inp g); lia|].
  unfold next_game. cbn [bullets].
  pose proof (bullet_step_count (fst (fire (now inp) g)) space3) as [Hle Hsum].
  assert (length (snd (bullet_step (fst (fire (now inp) g)) space3))
          <= length (fst (fire (now inp) g)))%nat as Hlen by lia.
  unfold fire in Hlen at 2. unfold fire_due.
  destruct (100 <=? milliseconds (now inp - last_bullet_time g)); simpl in Hlen.
  - rewrite length_app in Hlen. simpl in Hlen. lia.
  - lia.
Qed.

Lemma gates_and_timers_witness :
  last_bullet_time (game_after [Input (ms 100) NUL 1]) = ms 100 /\
  (fire_due (Input (ms 600) NUL 1) (game_after [Input (ms 100) NUL 1]) = true <->
   100000000 <= now (Input (ms 600) NUL 1)
                - last_bullet_time (game_after [Input (ms 100) NUL 1])) /\
  (descent_due (Input (ms 600) NUL 1) (game_after [Input (ms 100) NUL 1]) = true <->
   500000000 <= now (Input (ms 600) NUL 1)
                - last_frame_time (game_after [Input (ms 100) NUL 1])) /\
  (deploy_due (Input (ms 600) NUL 1) (game_after [Input (ms 100) NUL 1]) = true <->
   2000000000 <= now (Input (ms 600) NUL 1)
                 - last_deploy_time (game_after [Input (ms 100) NUL 1])).
Proof.
  destruct (gates_and_timers (game_after [Input (ms 100) NUL 1]) (Input (ms 600) NUL 1))
    as (H1 & H2 & H3 & _).
  - unfold clock_span. vm_compute. split; [discriminate|reflexivity].
  - unfold clock_span. vm_compute. split; [discriminate|reflexivity].
  - unfold clock_span. vm_compute. split; [discriminate|reflexivity].
  - split; [vm_compute; reflexivity|].
    split; [exact H1|]. split; [exact H2|exact H3].
Defined.

(** X20: bullets fly straight up and keep their order.  The list the
    bullet loops leave is the old list with every bullet moved one row up
    in its column, from which some bullets have been dropped; the loops
    never add a bullet, never change a column and never reorder. *)
Theorem bullets_fly_straight_up bs space :
  snd (bullet_step bs space) `sublist_of` (risen <$> bs).
Proof.
  rewrite bullet_step_eq. simpl.
  generalize (erase_bullets bs space). induction bs as [|b bs IH]; intros s.
  - simpl. constructor.
  - rewrite advance_bullets_cons. rewrite fmap_cons.
    destruct (1 <=? fst b - 1).
    + destruct (Ascii.eqb _ _).
      * apply sublist_cons. apply IH.
      * simpl. apply sublist_skip. apply IH.
    + apply sublist_cons. apply IH.
Qed.
